(** * AudioRecorder: a shallow embedding of the expense-tracker audio widget

    The development follows [src/components/expenses/AudioRecorder.tsx] and
    the [uploadExpenseFile] wrapper of [src/services/api.ts].

    - [JsNum]      : the JavaScript numbers the widget computes with.
    - [Waveform]   : the envelope loop of [visualizeAudio] and the canvas.
    - [Widget]     : the component state (hooks, refs), the browser objects
                     it touches, one function per handler, and the event
                     loop that runs them.
    - [Examples]   : concrete inputs and the states they lead to.
    - [Screen]     : what the component renders, and the events the
                     rendered controls offer.
    - the remaining sections state and prove the properties.

    Numbers.  A JavaScript number is an IEEE double.  Every finite double is
    a rational and the comparisons [<] and [>] on doubles are exact, so a
    finite number is a [Q]; the two infinities and NaN are kept apart since
    [undefined] converts to NaN and a comparison with NaN is false.
    Arithmetic is exact: the rounding of [+], [*] and [/] and the sign of
    zero are not part of the model. *)

From Stdlib Require Import QArith Qreduction Lqa Lia ZArith Arith List String Bool.
Import ListNotations.

(* ================================================================== *)
(** ** JavaScript numbers *)

Module JsNum.

Inductive num : Type :=
| Fin (q : Q)
| PInf
| NInf
| NaN.

Definition of_nat (n : nat) : num := Fin (inject_Z (Z.of_nat n)).

Definition zero : num := Fin 0.
Definition one : num := Fin 1.

(** [x < y] on rationals, as a boolean. *)
Definition Qltb (x y : Q) : bool :=
  (Qnum x * QDen y <? Qnum y * QDen x)%Z.

(** [a < b]: false as soon as one side is NaN. *)
Definition lt (a b : num) : bool :=
  match a, b with
  | NaN, _ | _, NaN => false
  | Fin x, Fin y => Qltb x y
  | NInf, NInf => false
  | NInf, _ => true
  | _, NInf => false
  | PInf, _ => false
  | Fin _, PInf => true
  end.

(** [a > b] is [b < a]. *)
Definition gt (a b : num) : bool := lt b a.

Definition inf_of_sign (c : comparison) : num :=
  match c with
  | Gt => PInf
  | Lt => NInf
  | Eq => NaN
  end.

Definition sign (a : num) : comparison :=
  match a with
  | Fin q => (q ?= 0)%Q
  | PInf => Gt
  | NInf => Lt
  | NaN => Eq
  end.

Definition mul_sign (c d : comparison) : comparison :=
  match c, d with
  | Eq, _ | _, Eq => Eq
  | Gt, Gt | Lt, Lt => Gt
  | _, _ => Lt
  end.

Definition add (a b : num) : num :=
  match a, b with
  | NaN, _ | _, NaN => NaN
  | Fin x, Fin y => Fin (Qred (x + y))
  | PInf, NInf | NInf, PInf => NaN
  | PInf, _ | _, PInf => PInf
  | NInf, _ | _, NInf => NInf
  end.

Definition mul (a b : num) : num :=
  match a, b with
  | NaN, _ | _, NaN => NaN
  | Fin x, Fin y => Fin (Qred (x * y))
  | _, _ => inf_of_sign (mul_sign (sign a) (sign b))
  end.

(** Division; a zero divisor is the positive zero. *)
Definition div (a b : num) : num :=
  match a, b with
  | NaN, _ | _, NaN => NaN
  | Fin x, Fin y =>
      if Qeq_bool y 0 then inf_of_sign (x ?= 0)%Q
      else Fin (Qred (x / y))
  | Fin _, _ => Fin 0
  | _, Fin y => if Qltb y 0 then inf_of_sign (mul_sign (sign a) Lt)
                else inf_of_sign (sign a)
  | _, _ => NaN
  end.

(** [ToNumber] of the result of an indexed read: [undefined] is NaN. *)
Definition ToNumber (v : option num) : num :=
  match v with
  | Some x => x
  | None => NaN
  end.

(** Numerically the same number. *)
Definition same (a b : num) : Prop :=
  match a, b with
  | Fin x, Fin y => x == y
  | PInf, PInf | NInf, NInf | NaN, NaN => True
  | _, _ => False
  end.

Definition finite (a : num) : Prop :=
  match a with
  | Fin _ => True
  | _ => False
  end.

(** A finite number within the rational bounds [lo] and [hi]. *)
Definition within (lo hi : Q) (a : num) : Prop :=
  match a with
  | Fin q => lo <= q /\ q <= hi
  | _ => False
  end.

End JsNum.

Import JsNum.

(* ================================================================== *)
(** ** The waveform renderer *)

Module Waveform.

(** The two colours of [theme.colors] the renderer uses, by name. *)
Inductive ThemeColor : Type :=
| waveformBackground
| waveform.

(** The calls the widget makes on a 2D drawing context. *)
Inductive DrawCmd : Type :=
| SetFillStyle (c : ThemeColor)
| FillRect (x y w h : nat)
| ClearRect (x y w h : nat)
| SetLineWidth (w : nat)
| SetStrokeStyle (c : ThemeColor)
| BeginPath
| MoveTo (x : nat) (y : num)
| LineTo (x : nat) (y : num)
| Stroke.

(** A canvas element: its size attributes and, when [getContext('2d')]
    answers, the calls made on the context so far. *)
Record Canvas : Type := mkCanvas {
  width : nat;
  height : nat;
  context2d : option (list DrawCmd)
}.

(** The decoded audio: the samples of channel 0 and the other channels. *)
Record AudioBuffer : Type := mkAudioBuffer {
  channel0 : list num;
  otherChannels : list (list num)
}.

Definition getChannelData0 (b : AudioBuffer) : list num := channel0 b.

(** [Math.ceil(n / w)] for array length [n] and canvas width [w >= 1].
    With [w = 0] the quotient is infinite or NaN in the source and the
    column loop does not run; the value here is then never used. *)
Definition ceil_div (n w : nat) : nat :=
  if n mod w =? 0 then n / w else S (n / w).

(** One turn of the inner loop: read [channelData[i*step + j]] and
    update the running pair. *)
Definition scan_datum (channelData : list num) (i step : nat)
           (mm : num * num) (j : nat) : num * num :=
  let datum := nth_error channelData (i * step + j) in
  let min := if lt (ToNumber datum) (fst mm) then ToNumber datum else fst mm in
  let max := if gt (ToNumber datum) (snd mm) then ToNumber datum else snd mm in
  (min, max).

(** The inner loop [for (j = 0; j < step; j++)] from [min = 1.0],
    [max = -1.0]. *)
Definition column (channelData : list num) (step i : nat) : num * num :=
  fold_left (scan_datum channelData i step) (seq 0 step) (Fin 1, Fin (-1)).

(** The two path calls of column [i]. *)
Definition draw_column (amp : num) (i : nat) (mm : num * num) : list DrawCmd :=
  [ MoveTo i (mul (add one (fst mm)) amp);
    LineTo i (mul (add one (snd mm)) amp) ].

(** The outer loop [for (i = 0; i < WIDTH; i++)]: the pairs it records. *)
Definition envelope (channelData : list num) (WIDTH : nat) : list (num * num) :=
  let step := ceil_div (List.length channelData) WIDTH in
  map (column channelData step) (seq 0 WIDTH).

(** The outer loop with its drawing calls. *)
Definition draw_envelope (channelData : list num) (WIDTH HEIGHT : nat)
  : list DrawCmd :=
  let step := ceil_div (List.length channelData) WIDTH in
  let amp := div (of_nat HEIGHT) (Fin 2) in
  flat_map (fun i => draw_column amp i (column channelData step i))
           (seq 0 WIDTH).

(** Everything [visualizeAudio] does on the context after decoding. *)
Definition render (audioBuffer : AudioBuffer) (WIDTH HEIGHT : nat)
  : list DrawCmd :=
  [ SetFillStyle waveformBackground;
    FillRect 0 0 WIDTH HEIGHT;
    SetLineWidth 2;
    SetStrokeStyle waveform;
    BeginPath ]
  ++ draw_envelope (getChannelData0 audioBuffer) WIDTH HEIGHT
  ++ [ Stroke ].

(** What the awaited [decodeAudioData] promise settles to. *)
Inductive Decoding : Type :=
| Decoded (audioBuffer : AudioBuffer)
| DecodeRejected.

(** How an [async] function ends: it returns, or its promise rejects. *)
Inductive Completion : Type :=
| Returned (canvasRef : option Canvas)
| Threw.

(** [visualizeAudio], given what decoding settles to. *)
Definition visualizeAudio (canvasRef : option Canvas) (decoding : Decoding)
  : Completion :=
  match canvasRef with
  | None => Returned canvasRef
  | Some canvas =>
      match decoding with
      | DecodeRejected => Threw
      | Decoded audioBuffer =>
          match context2d canvas with
          | None => Returned canvasRef
          | Some calls =>
              Returned (Some (mkCanvas (width canvas) (height canvas)
                (Some (calls ++ render audioBuffer (width canvas) (height canvas)))))
          end
      end
  end.

(** *** The span of samples the specification gives to column [i] *)

(** The samples at indices [i*step .. i*step + step - 1]. *)
Definition span (channelData : list num) (step i : nat) : list num :=
  firstn step (skipn (i * step) channelData).

(** The smaller, and the larger, of a running value and a sample. *)
Definition min_step (m d : num) : num := if lt d m then d else m.
Definition max_step (m d : num) : num := if gt d m then d else m.

(** The least and the greatest element of a list of amplitudes. *)
Definition least (l : list num) : option num :=
  match l with
  | [] => None
  | x :: r => Some (fold_left min_step r x)
  end.

Definition greatest (l : list num) : option num :=
  match l with
  | [] => None
  | x :: r => Some (fold_left max_step r x)
  end.

(** The pair the specification's wording assigns to a column: the
    (min, max) amplitude over its span. *)
Definition span_min_max (channelData : list num) (step i : nat)
  : option num * option num :=
  (least (span channelData step i), greatest (span channelData step i)).

(** The specification's reading of the envelope: [WIDTH] pairs, the pair
    of column [i] being the (min, max) amplitude over its span. *)
Definition envelope_of_spans (channelData : list num) (WIDTH : nat) : Prop :=
  let step := ceil_div (List.length channelData) WIDTH in
  List.length (envelope channelData WIDTH) = WIDTH /\
  forall i, (i < WIDTH)%nat ->
    exists lo hi,
      span_min_max channelData step i = (Some lo, Some hi) /\
      same (fst (nth i (envelope channelData WIDTH) (NaN, NaN))) lo /\
      same (snd (nth i (envelope channelData WIDTH) (NaN, NaN))) hi.

(** The sample indices the loops read: [i*step + j] for [i < WIDTH],
    [j < step]. *)
Definition indices_read (n WIDTH : nat) : list nat :=
  let step := ceil_div n WIDTH in
  flat_map (fun i => map (fun j => i * step + j)%nat (seq 0 step)) (seq 0 WIDTH).

End Waveform.

Import Waveform.

(* ================================================================== *)
(** ** The widget: state, browser objects and handlers *)

Module Widget.

Local Open Scope nat_scope.

(** *** Values *)

(** A [Blob] (or [File], when it has a name).  [blob_id] stands for the
    identity of the JavaScript object: React compares hook dependencies
    with [Object.is]. *)
Record Blob : Type := mkBlob {
  blob_id : nat;
  blob_name : option string;
  blob_type : string;
  blob_bytes : list Byte.byte
}.

(** Modelled from the spec: the [Expense] record of [src/types], which is
    not among the sources; an expense is kept as its JSON text. *)
Inductive Expense : Type :=
| ExpenseRecord (json : string).

Inductive Url : Type :=
| BlobUrl (n : nat).

Definition url_id (u : Url) : nat := match u with BlobUrl n => n end.

Inductive AudioSource : Type :=
| recorded
| uploaded.

Record MediaStream : Type := mkMediaStream {
  stream_id : nat;
  stream_live : bool              (* its tracks have not been stopped *)
}.

Inductive RecordingState : Type :=
| inactive
| recording.

(** A [MediaRecorder] with the [audioChunks] array its callbacks close
    over. *)
Record MediaRecorder : Type := mkMediaRecorder {
  rec_stream : nat;
  rec_state : RecordingState;
  audioChunks : list (list Byte.byte)
}.

Record AudioElement : Type := mkAudioElement {
  paused : bool;
  currentTime : num;
  duration : num
}.

(** *** The upload exchange *)

(** A response body on which a property can be read: [message] and
    [expense] are what [data.message] and [data.expense] give, [None]
    for [undefined].  [message] is kept as the string that [+] makes of
    it. *)
Record ResponseData : Type := mkResponseData {
  message : option string;
  expense : option Expense
}.

(** [response.data] after axios has parsed the body.  The JSON body
    [null] is its own case: reading a property of it throws a
    [TypeError]. *)
Inductive Body : Type :=
| JsonNull
| JsonData (data : ResponseData).

(** What happens to the POST on the wire. *)
Inductive HttpOutcome : Type :=
| HttpResponse (status : nat) (body : Body)
| NoResponse                       (* sent, nothing came back *)
| RequestNotSent                   (* failed while being set up *)
| OtherException.                  (* an error that is not axios's *)

(** The promise [api.post] returns, settled. *)
Inductive AxiosResult : Type :=
| Fulfilled (status : nat) (data : Body)
| AxiosError (response : option (nat * Body)) (request : bool)
| NonAxiosError.

(** axios's default [validateStatus]. *)
Definition validateStatus (status : nat) : bool :=
  (200 <=? status) && (status <? 300).

Definition api_post (o : HttpOutcome) : AxiosResult :=
  match o with
  | HttpResponse status body =>
      if validateStatus status then Fulfilled status body
      else AxiosError (Some (status, body)) true
  | NoResponse => AxiosError None true
  | RequestNotSent => AxiosError None false
  | OtherException => NonAxiosError
  end.

(** String concatenation with a possibly missing property. *)
Definition js_string (v : option string) : string :=
  match v with
  | Some m => m
  | None => "undefined"%string
  end.

(** *** Calls that leave the component *)

Inductive Call : Type :=
| createObjectURL (blob : Blob) (url : Url)
| revokeObjectURL (url : Url)
| post_upload (file : Blob)              (* api.post('/expenses/upload', ...) *)
| onUploadComplete (arg : option Expense).

(** *** State *)

(** The eight [useState] cells. *)
Record Hooks : Type := mkHooks {
  isRecording : bool;
  audioBlob : option Blob;
  audioUrl : option Url;
  isPlaying : bool;
  isLoading : bool;
  errorMessage : option string;
  audioSource : option AudioSource;
  playbackPosition : num
}.

(** The three [useRef] cells. *)
Record Refs : Type := mkRefs {
  mediaRecorderRef : option MediaRecorder;
  audioRef : option AudioElement;
  canvasRef : option Canvas
}.

(** What React keeps for [useEffect(..., [audioBlob])], and the
    [handleUpload] calls suspended at their [await]. *)
Record Fiber : Type := mkFiber {
  effectDeps : option Blob;        (* [audioBlob] when the effect last ran *)
  effectCleanup : option Url;      (* the url its cleanup will revoke *)
  pendingUploads : nat
}.

(** The part of the browser the widget acts on. *)
Record Browser : Type := mkBrowser {
  objectUrls : list (Url * Blob);  (* object urls created and not revoked *)
  micStreams : list MediaStream;   (* streams obtained from getUserMedia *)
  nextId : nat;                    (* next fresh object identity *)
  calls : list Call
}.

Record State : Type := mkState {
  hooks : Hooks;
  refs : Refs;
  fiber : Fiber;
  browser : Browser
}.

(** *** Setters *)

Definition with_hooks (f : Hooks -> Hooks) (s : State) : State :=
  mkState (f (hooks s)) (refs s) (fiber s) (browser s).
Definition with_refs (f : Refs -> Refs) (s : State) : State :=
  mkState (hooks s) (f (refs s)) (fiber s) (browser s).
Definition with_fiber (f : Fiber -> Fiber) (s : State) : State :=
  mkState (hooks s) (refs s) (f (fiber s)) (browser s).
Definition with_browser (f : Browser -> Browser) (s : State) : State :=
  mkState (hooks s) (refs s) (fiber s) (f (browser s)).

Definition setIsRecording (v : bool) : State -> State :=
  with_hooks (fun h => mkHooks v (audioBlob h) (audioUrl h) (isPlaying h)
    (isLoading h) (errorMessage h) (audioSource h) (playbackPosition h)).
Definition setAudioBlob (v : option Blob) : State -> State :=
  with_hooks (fun h => mkHooks (isRecording h) v (audioUrl h) (isPlaying h)
    (isLoading h) (errorMessage h) (audioSource h) (playbackPosition h)).
Definition setAudioUrl (v : option Url) : State -> State :=
  with_hooks (fun h => mkHooks (isRecording h) (audioBlob h) v (isPlaying h)
    (isLoading h) (errorMessage h) (audioSource h) (playbackPosition h)).
Definition setIsPlaying (v : bool) : State -> State :=
  with_hooks (fun h => mkHooks (isRecording h) (audioBlob h) (audioUrl h) v
    (isLoading h) (errorMessage h) (audioSource h) (playbackPosition h)).
Definition setIsLoading (v : bool) : State -> State :=
  with_hooks (fun h => mkHooks (isRecording h) (audioBlob h) (audioUrl h)
    (isPlaying h) v (errorMessage h) (audioSource h) (playbackPosition h)).
Definition setErrorMessage (v : option string) : State -> State :=
  with_hooks (fun h => mkHooks (isRecording h) (audioBlob h) (audioUrl h)
    (isPlaying h) (isLoading h) v (audioSource h) (playbackPosition h)).
Definition setAudioSource (v : option AudioSource) : State -> State :=
  with_hooks (fun h => mkHooks (isRecording h) (audioBlob h) (audioUrl h)
    (isPlaying h) (isLoading h) (errorMessage h) v (playbackPosition h)).
Definition setPlaybackPosition (v : num) : State -> State :=
  with_hooks (fun h => mkHooks (isRecording h) (audioBlob h) (audioUrl h)
    (isPlaying h) (isLoading h) (errorMessage h) (audioSource h) v).

Definition set_mediaRecorderRef (v : option MediaRecorder) : State -> State :=
  with_refs (fun r => mkRefs v (audioRef r) (canvasRef r)).
Definition set_audioRef (v : option AudioElement) : State -> State :=
  with_refs (fun r => mkRefs (mediaRecorderRef r) v (canvasRef r)).
Definition set_canvasRef (v : option Canvas) : State -> State :=
  with_refs (fun r => mkRefs (mediaRecorderRef r) (audioRef r) v).

Definition log (c : Call) : State -> State :=
  with_browser (fun b => mkBrowser (objectUrls b) (micStreams b) (nextId b)
    (calls b ++ [c])).

(** Take a fresh object identity. *)
Definition fresh (s : State) : nat * State :=
  (nextId (browser s),
   with_browser (fun b => mkBrowser (objectUrls b) (micStreams b)
     (S (nextId b)) (calls b)) s).

(** *** Browser operations *)

Definition Url_eqb (u v : Url) : bool := url_id u =? url_id v.

(** [URL.createObjectURL(blob)]. *)
Definition URL_createObjectURL (blob : Blob) (s : State) : Url * State :=
  let (n, s) := fresh s in
  let url := BlobUrl n in
  (url,
   log (createObjectURL blob url)
     (with_browser (fun b => mkBrowser ((url, blob) :: objectUrls b)
        (micStreams b) (nextId b) (calls b)) s)).

(** [URL.revokeObjectURL(url)]. *)
Definition URL_revokeObjectURL (url : Url) (s : State) : State :=
  log (revokeObjectURL url)
    (with_browser (fun b => mkBrowser
       (filter (fun e => negb (Url_eqb (fst e) url)) (objectUrls b))
       (micStreams b) (nextId b) (calls b)) s).

(** [navigator.mediaDevices.getUserMedia({ audio: true })], granted. *)
Definition getUserMedia (s : State) : MediaStream * State :=
  let (n, s) := fresh s in
  let stream := mkMediaStream n true in
  (stream,
   with_browser (fun b => mkBrowser (objectUrls b) (micStreams b ++ [stream])
     (nextId b) (calls b)) s).

(** [new Blob(parts, { type })]. *)
Definition new_Blob (parts : list (list Byte.byte)) (type : string)
           (s : State) : Blob * State :=
  let (n, s) := fresh s in
  (mkBlob n None type (List.concat parts), s).

(** [new File([blob], name, { type })]. *)
Definition new_File (blob : Blob) (name type : string) (s : State)
  : Blob * State :=
  let (n, s) := fresh s in
  (mkBlob n (Some name) type (blob_bytes blob), s).

(** [recorder.start()], [recorder.stop()] and the chunk a
    [dataavailable] event delivers. *)
Definition MediaRecorder_start (r : MediaRecorder) : MediaRecorder :=
  mkMediaRecorder (rec_stream r) recording (audioChunks r).
Definition MediaRecorder_stop (r : MediaRecorder) : MediaRecorder :=
  mkMediaRecorder (rec_stream r) inactive (audioChunks r).
Definition push_chunk (chunk : list Byte.byte) (r : MediaRecorder)
  : MediaRecorder :=
  mkMediaRecorder (rec_stream r) (rec_state r) (audioChunks r ++ [chunk]).

(** [audio.pause()], a successful [audio.play()], [audio.currentTime = 0]. *)
Definition audio_pause (a : AudioElement) : AudioElement :=
  mkAudioElement true (currentTime a) (duration a).
Definition audio_play (a : AudioElement) : AudioElement :=
  mkAudioElement false (currentTime a) (duration a).
Definition audio_seek (t : num) (a : AudioElement) : AudioElement :=
  mkAudioElement (paused a) t (duration a).

(** *** The user-facing messages *)

Definition msg_microphone : string :=
  "No se pudo acceder al micrófono. Por favor, verifica los permisos e intenta de nuevo."%string.
Definition msg_playback : string :=
  "Error al reproducir el audio. Por favor, intenta de nuevo."%string.
Definition msg_no_valid_expense : string :=
  "No se registró ningún gasto. El archivo se procesó correctamente, pero no se pudo identificar ningún gasto válido."%string.
Definition msg_server_prefix : string :=
  "Error en la respuesta del servidor: "%string.
Definition msg_no_response : string :=
  "No se recibió respuesta del servidor. Por favor, intenta de nuevo."%string.
Definition msg_request : string :=
  "Error al preparar la solicitud. Por favor, intenta de nuevo."%string.
Definition msg_unexpected : string :=
  "Ocurrió un error inesperado. Por favor, intenta de nuevo."%string.

(** *** The [useEffect] on [audioBlob] *)

(** [Object.is] on the dependency. *)
Definition same_dep (a b : option Blob) : bool :=
  match a, b with
  | None, None => true
  | Some x, Some y => blob_id x =? blob_id y
  | _, _ => false
  end.

Definition set_effect (deps : option Blob) (cleanup : option Url)
  : State -> State :=
  with_fiber (fun f => mkFiber deps cleanup (pendingUploads f)).

Definition set_pendingUploads (n : nat) : State -> State :=
  with_fiber (fun f => mkFiber (effectDeps f) (effectCleanup f) n).

(** After a render in which [audioBlob] changed, React runs the cleanup
    the effect returned last time and then the effect; the [setAudioUrl]
    inside it renders again with the same dependency. *)
Definition flushEffects (s : State) : State :=
  if same_dep (effectDeps (fiber s)) (audioBlob (hooks s)) then s
  else
    let s := match effectCleanup (fiber s) with
             | Some url => URL_revokeObjectURL url s
             | None => s
             end in
    match audioBlob (hooks s) with
    | Some blob =>
        let (url, s) := URL_createObjectURL blob s in
        set_effect (Some blob) (Some url) (setAudioUrl (Some url) s)
    | None => set_effect None None s
    end.

(** *** Handlers *)

Inductive MicAnswer : Type :=
| MicGranted
| MicRefused.

Definition startRecording (mic : MicAnswer) (s : State) : State :=
  match mic with
  | MicGranted =>
      let (stream, s) := getUserMedia s in
      let r := mkMediaRecorder (stream_id stream) inactive [] in
      let s := set_mediaRecorderRef (Some (MediaRecorder_start r)) s in
      setIsRecording true s
  | MicRefused => setErrorMessage (Some msg_microphone) s
  end.

Definition stopRecording (s : State) : State :=
  match mediaRecorderRef (refs s) with
  | Some r =>
      if isRecording (hooks s) then
        let s := set_mediaRecorderRef (Some (MediaRecorder_stop r)) s in
        setIsRecording false s
      else s
  | None => s
  end.

(** [visualizeAudio] called from a handler: the canvas it leaves, or the
    rejection nobody handles.  Its awaits are taken in one step with the
    caller; between them it touches no state. *)
Definition call_visualizeAudio (decoding : Decoding) (s : State) : State :=
  match visualizeAudio (canvasRef (refs s)) decoding with
  | Returned c => set_canvasRef c s
  | Threw => s
  end.

(** [mediaRecorderRef.current.ondataavailable]. *)
Definition ondataavailable (chunk : list Byte.byte) (s : State) : State :=
  match mediaRecorderRef (refs s) with
  | Some r => set_mediaRecorderRef (Some (push_chunk chunk r)) s
  | None => s
  end.

(** [mediaRecorderRef.current.onstop]; the recorder is inactive when the
    browser fires it. *)
Definition onstop (decoding : Decoding) (s : State) : State :=
  match mediaRecorderRef (refs s) with
  | Some r =>
      let s := set_mediaRecorderRef (Some (MediaRecorder_stop r)) s in
      let (blob, s) := new_Blob (audioChunks r) "audio/wav" s in
      let s := setAudioBlob (Some blob) s in
      let s := setAudioSource (Some recorded) s in
      let s := setIsRecording false s in
      call_visualizeAudio decoding s
  | None => s
  end.

(** [playSucceeds] tells whether the promise of [audio.play()] resolves;
    when it rejects the element stays paused. *)
Definition togglePlayback (playSucceeds : bool) (s : State) : State :=
  match audioRef (refs s) with
  | Some audio =>
      let playing := isPlaying (hooks s) in
      let s := if playing then set_audioRef (Some (audio_pause audio)) s
               else if playSucceeds then set_audioRef (Some (audio_play audio)) s
               else s in
      let s := setIsPlaying (negb playing) s in
      (* the [.catch] callback of a rejected [play()] runs afterwards *)
      if negb playing && negb playSucceeds
      then setErrorMessage (Some msg_playback) s
      else s
  | None => s
  end.

Definition updatePlaybackPosition (s : State) : State :=
  match audioRef (refs s), canvasRef (refs s) with
  | Some audio, Some canvas =>
      let position :=
        mul (div (currentTime audio) (duration audio)) (of_nat (width canvas)) in
      setPlaybackPosition position s
  | _, _ => s
  end.

Definition handleFileSelect (file : option Blob) (decoding : Decoding)
           (s : State) : State :=
  match file with
  | Some file =>
      let s := setAudioBlob (Some file) s in
      let s := setAudioSource (Some uploaded) s in
      call_visualizeAudio decoding s
  | None => s
  end.

Definition clear_canvas (s : State) : State :=
  match canvasRef (refs s) with
  | Some canvas =>
      match context2d canvas with
      | Some drawn =>
          set_canvasRef (Some (mkCanvas (width canvas) (height canvas)
            (Some (drawn ++ [ClearRect 0 0 (width canvas) (height canvas)])))) s
      | None => s
      end
  | None => s
  end.

Definition resetAudio (s : State) : State :=
  let s := match audioRef (refs s) with
           | Some audio =>
               set_audioRef (Some (audio_seek (Fin 0) (audio_pause audio))) s
           | None => s
           end in
  let s := setAudioBlob None s in
  let s := setAudioUrl None s in
  let s := setAudioSource None s in
  let s := setIsPlaying false s in
  let s := setPlaybackPosition (Fin 0) s in
  clear_canvas s.

(** [uploadExpenseFile(file)]: the POST is issued and its promise
    returned. *)
Definition uploadExpenseFile (file : Blob) (s : State) : State :=
  log (post_upload file) s.

(** [handleUpload] up to its [await]. *)
Definition handleUpload_begin (s : State) : State :=
  match audioBlob (hooks s) with
  | Some blob =>
      let s := setIsLoading true s in
      let (file, s) := new_File blob "audio_expense.wav" "audio/wav" s in
      let s := uploadExpenseFile file s in
      set_pendingUploads (S (pendingUploads (fiber s))) s
  | None => s
  end.

(** [handleUpload] from its [await] on, once the POST has settled.
    [hostThrows] says whether the host's [onUploadComplete] throws.

    Two property reads can throw.  [response.data.expense] stands in
    the [try]: on a [null] body its [TypeError] reaches the [catch]
    before the host is called, and is not an axios error.
    [error.response.data.message] stands in the [catch] itself: on a
    [null] body its [TypeError] leaves the handler before
    [setErrorMessage] runs.  The [finally] block runs either way. *)
Definition handleUpload_settle (outcome : HttpOutcome) (hostThrows : bool)
           (s : State) : State :=
  match pendingUploads (fiber s) with
  | O => s
  | S n =>
      let s := set_pendingUploads n s in
      let s :=
        match api_post outcome with
        | Fulfilled _ (JsonData data) =>
            let s := log (onUploadComplete (expense data)) s in
            if hostThrows then setErrorMessage (Some msg_unexpected) s else s
        | Fulfilled _ JsonNull => setErrorMessage (Some msg_unexpected) s
        | AxiosError (Some (status, body)) _ =>
            if status =? 422
            then setErrorMessage (Some msg_no_valid_expense) s
            else match body with
                 | JsonData data =>
                     setErrorMessage
                       (Some (msg_server_prefix ++ js_string (message data))%string) s
                 | JsonNull => s
                 end
        | AxiosError None true => setErrorMessage (Some msg_no_response) s
        | AxiosError None false => setErrorMessage (Some msg_request) s
        | NonAxiosError => setErrorMessage (Some msg_unexpected) s
        end in
      setIsLoading false s
  end.

(** *** Events *)

(** What the file picker hands over. *)
Record PickedFile : Type := mkPickedFile {
  picked_name : string;
  picked_type : string;
  picked_bytes : list Byte.byte
}.

Inductive Event : Type :=
| ClickRecord (mic : MicAnswer)
| ClickStop
| RecorderData (chunk : list Byte.byte)
| RecorderStopped (decoding : Decoding)
| FileChosen (file : option PickedFile) (decoding : Decoding)
| ClickPlayPause (playSucceeds : bool)
| AudioTimeUpdate (time total : num)
| AudioEnded
| AudioPlay
| AudioPause
| ClickTrash
| ClickSubmit
| UploadSettled (outcome : HttpOutcome) (hostThrows : bool)
| CloseError.

(** The browser moves the element's clock, then fires [timeupdate]. *)
Definition media_progress (time total : num) (s : State) : State :=
  match audioRef (refs s) with
  | Some audio => set_audioRef (Some (mkAudioElement (paused audio) time total)) s
  | None => s
  end.

(** The handler an event runs, without the render that follows. *)
Definition dispatch (e : Event) (s : State) : State :=
  match e with
  | ClickRecord mic => startRecording mic s
  | ClickStop => stopRecording s
  | RecorderData chunk => ondataavailable chunk s
  | RecorderStopped decoding => onstop decoding s
  | FileChosen None decoding => handleFileSelect None decoding s
  | FileChosen (Some f) decoding =>
      let (n, s) := fresh s in
      handleFileSelect
        (Some (mkBlob n (Some (picked_name f)) (picked_type f) (picked_bytes f)))
        decoding s
  | ClickPlayPause playSucceeds => togglePlayback playSucceeds s
  | AudioTimeUpdate time total =>
      updatePlaybackPosition (media_progress time total s)
  | AudioEnded => setIsPlaying false s
  | AudioPlay => setIsPlaying true s
  | AudioPause => setIsPlaying false s
  | ClickTrash => resetAudio s
  | ClickSubmit => handleUpload_begin s
  | UploadSettled outcome hostThrows => handleUpload_settle outcome hostThrows s
  | CloseError => setErrorMessage None s
  end.

(** One turn of the event loop: the handler, then React's render and
    effects. *)
Definition handle (e : Event) (s : State) : State :=
  flushEffects (dispatch e s).

Definition run (es : list Event) (s : State) : State :=
  fold_left (fun s e => handle e s) es s.

(** The mounted widget: [<Waveform width={800} height={100} />] and the
    [<audio>] element are always rendered. *)
Definition initial : State :=
  mkState
    (mkHooks false None None false false None None (Fin 0))
    (mkRefs None
            (Some (mkAudioElement true (Fin 0) NaN))
            (Some (mkCanvas 800 100 (Some []))))
    (mkFiber None None 0)
    (mkBrowser [] [] 0 []).

(** What the audio element can report at a [timeupdate]: a time between 0
    and the total duration, which is positive, possibly infinite. *)
Definition media_clock (time total : num) : Prop :=
  match time with
  | Fin t =>
      (0 <= t)%Q /\
      match total with
      | Fin d => (0 < d)%Q /\ (t <= d)%Q
      | PInf => True
      | _ => False
      end
  | _ => False
  end.

Definition plausible (e : Event) : Prop :=
  match e with
  | AudioTimeUpdate time total => media_clock time total
  | _ => True
  end.

(** The states the mounted widget gets into. *)
Inductive reachable : State -> Prop :=
| reachable_initial : reachable initial
| reachable_handle (e : Event) (s : State) :
    reachable s -> reachable (handle e s).

(** ... when every time update carries a plausible clock. *)
Inductive reachable_clocked : State -> Prop :=
| clocked_initial : reachable_clocked initial
| clocked_handle (e : Event) (s : State) :
    reachable_clocked s -> plausible e -> reachable_clocked (handle e s).

(** *** Notions the properties are stated with *)

(** The object urls the held capture accounts for. *)
Definition held (s : State) : list (Url * Blob) :=
  match audioUrl (hooks s), audioBlob (hooks s) with
  | Some url, Some blob => [(url, blob)]
  | _, _ => []
  end.

(** The arguments the host callback has been called with, in order. *)
Definition host_args (l : list Call) : list (option Expense) :=
  flat_map (fun c => match c with
                     | onUploadComplete arg => [arg]
                     | _ => []
                     end) l.

Definition host_calls (s : State) : list (option Expense) :=
  host_args (calls (browser s)).

(** The event is an upload settling with a 2xx response. *)
Definition is_success (e : Event) : bool :=
  match e with
  | UploadSettled (HttpResponse status _) _ => validateStatus status
  | _ => false
  end.

(** The event is an upload settling with a 2xx response whose body is
    not [null]: the settlements on which line 288 gets as far as the
    host. *)
Definition hands_over (e : Event) : bool :=
  match e with
  | UploadSettled (HttpResponse status (JsonData _)) _ => validateStatus status
  | _ => false
  end.

(** The event puts a new capture in place: a file is chosen, or the
    recorder of [mediaRecorderRef] fires [stop]. *)
Definition brings_capture (e : Event) (s : State) : bool :=
  match e with
  | FileChosen (Some _) _ => true
  | RecorderStopped _ =>
      match mediaRecorderRef (refs s) with
      | Some _ => true
      | None => false
      end
  | _ => false
  end.

(** The events whose handlers call [setPlaybackPosition]. *)
Definition moves_position (e : Event) : bool :=
  match e with
  | AudioTimeUpdate _ _ | ClickTrash => true
  | _ => false
  end.

(** Every microphone stream obtained so far has had its tracks stopped. *)
Definition mic_released (s : State) : Prop :=
  Forall (fun m => stream_live m = false) (micStreams (browser s)).

(** What every handler leaves in place: the mounted elements, a recorder
    behind the recording flag, live streams. *)
Record steady (s : State) : Prop := mkSteady {
  st_canvas : exists drawn,
      canvasRef (refs s) = Some (mkCanvas 800 100 (Some drawn));
  st_audio : exists audio, audioRef (refs s) = Some audio;
  st_recording : isRecording (hooks s) = true ->
                 exists r, mediaRecorderRef (refs s) = Some r /\
                           rec_state r = recording;
  st_idle : isRecording (hooks s) = false ->
            forall r, mediaRecorderRef (refs s) = Some r ->
                      rec_state r = inactive;
  st_streams : Forall (fun m => stream_live m = true) (micStreams (browser s))
}.

(** What holds between two turns of the event loop. *)
Record consistent (s : State) : Prop := mkConsistent {
  c_deps : effectDeps (fiber s) = audioBlob (hooks s);
  c_cleanup : effectCleanup (fiber s) = audioUrl (hooks s);
  c_urls : objectUrls (browser s) = held s;
  c_both : audioBlob (hooks s) = None <-> audioUrl (hooks s) = None;
  c_blob_id : forall b, audioBlob (hooks s) = Some b ->
                        blob_id b < nextId (browser s);
  c_url_id : forall u, audioUrl (hooks s) = Some u ->
                       url_id u < nextId (browser s);
  c_steady : steady s
}.

End Widget.

Import Widget.

(* ================================================================== *)
(** ** Concrete inputs *)

Module Examples.

(** Four samples on a canvas two pixels wide: both spans lie within the
    buffer. *)
Definition four_samples : list num :=
  [Fin (1 # 2); Fin (-1 # 4); Fin (1 # 3); Fin 0].

(** 800 samples above the nominal range, as a float recording can hold. *)
Definition loud_samples : list num := repeat (Fin (3 # 2)) 800.

Definition voice_note : PickedFile :=
  mkPickedFile "nota.wav" "audio/wav" [Byte.x52; Byte.x49; Byte.x46; Byte.x46].

(** A file the browser cannot decode. *)
Definition not_audio : PickedFile :=
  mkPickedFile "nota.txt" "text/plain" [Byte.x68; Byte.x6f; Byte.x6c; Byte.x61].

Definition decoded_note : Decoding :=
  Decoded (mkAudioBuffer four_samples []).

Definition lunch : Expense :=
  ExpenseRecord "{ description: almuerzo, amount: 12.5 }".

(** The widget holding the chosen [voice_note]. *)
Definition with_capture : State :=
  handle (FileChosen (Some voice_note) decoded_note) initial.

(** ... and with its upload in flight. *)
Definition uploading : State := handle ClickSubmit with_capture.

(** ... and half way through playing a two-second clip. *)
Definition half_played : State :=
  handle (AudioTimeUpdate (Fin 1) (Fin 2)) with_capture.

(** A recording started and stopped, and then discarded. *)
Definition recorded_once : State :=
  run [ClickRecord MicGranted; RecorderData [Byte.x00]; ClickStop;
       RecorderStopped decoded_note] initial.

Definition recorded_and_reset : State := handle ClickTrash recorded_once.

(** The chosen [voice_note] played from the play button up to the last
    time update of a two-second clip. *)
Definition played_to_end : State :=
  run [ClickPlayPause true; AudioPlay; AudioTimeUpdate (Fin 2) (Fin 2)]
      with_capture.

(** An upload in flight and a [play()] the browser rejected: the
    playback error is on screen while the POST is still out. *)
Definition play_failed : State := handle (ClickPlayPause false) uploading.

(** The microphone granted and the recorder running, with one chunk
    delivered. *)
Definition recording_now : State :=
  run [ClickRecord MicGranted; RecorderData [Byte.x00]] initial.

End Examples.

Import Examples.

(* ================================================================== *)
(** ** What the component renders *)

Module Screen.

Local Open Scope nat_scope.

(** [!!v] for a string or [null]: the empty string is falsy. *)
Definition truthy (v : option string) : bool :=
  match v with
  | Some m => negb (String.eqb m "")
  | None => false
  end.

(** The two alternatives of the button row. *)
Inductive Controls : Type :=
| RecordControls (stopIcon : bool)    (* microphone/stop button, file picker *)
| PlaybackControls (pauseIcon : bool). (* play/pause button, trash button *)

(** The parts of the returned element tree that depend on the state. *)
Record View : Type := mkView {
  loadingOverlay : option string;     (* [isLoading && <LoadingOverlay ...>] *)
  waveformVisible : bool;             (* [isVisible] of the container *)
  playbackMarker : option num;        (* [left] of the marker, in px *)
  statusText : string;
  controls : Controls;
  submitButton : option bool;         (* present, with its [disabled] *)
  audioSrc : option Url;              (* [audioUrl || ''], [None] for [''] *)
  errorModalOpen : bool;
  errorModalMessage : string
}.

Definition text_recording : string := "Grabando..."%string.
Definition text_recorded : string := "Audio grabado"%string.
Definition text_uploaded : string := "Audio cargado"%string.
Definition text_prompt : string :=
  "Graba o carga un audio para registrar un gasto"%string.

Definition view (s : State) : View :=
  let h := hooks s in
  mkView
    (if isLoading h then Some "Procesando audio..."%string else None)
    (match audioBlob h with Some _ => true | None => isRecording h end)
    (match audioBlob h with Some _ => Some (playbackPosition h) | None => None end)
    (if isRecording h then text_recording
     else match audioSource h with
          | Some recorded => text_recorded
          | Some uploaded => text_uploaded
          | None => text_prompt
          end)
    (match audioBlob h with
     | None => RecordControls (isRecording h)
     | Some _ => PlaybackControls (isPlaying h)
     end)
    (match audioBlob h with Some _ => Some (isLoading h) | None => None end)
    (audioUrl h)
    (truthy (errorMessage h))
    (match errorMessage h with Some m => m | None => ""%string end).

(** The events the rendered controls let the user cause; the events the
    browser fires are not the user's to withhold. *)
Definition offered (s : State) (e : Event) : bool :=
  match e with
  | ClickRecord _ =>
      match controls (view s) with
      | RecordControls stopIcon => negb stopIcon
      | PlaybackControls _ => false
      end
  | ClickStop =>
      match controls (view s) with
      | RecordControls stopIcon => stopIcon
      | PlaybackControls _ => false
      end
  | FileChosen _ _ =>
      match controls (view s) with
      | RecordControls _ => true
      | PlaybackControls _ => false
      end
  | ClickPlayPause _ | ClickTrash =>
      match controls (view s) with
      | RecordControls _ => false
      | PlaybackControls _ => true
      end
  | ClickSubmit =>
      match submitButton (view s) with
      | Some disabled => negb disabled
      | None => false
      end
  | _ => true
  end.

(** The states the widget gets into when the user acts through the
    rendered controls only. *)
Inductive reachable_ui : State -> Prop :=
| ui_initial : reachable_ui initial
| ui_handle (e : Event) (s : State) :
    reachable_ui s -> offered s e = true -> reachable_ui (handle e s).

(** The capture held is what its [audioSource] label says: a blob built
    by [onstop], or a file from the picker. *)
Definition labelled (s : State) : Prop :=
  match audioBlob (hooks s), audioSource (hooks s) with
  | None, None => True
  | Some blob, Some recorded =>
      blob_name blob = None /\ blob_type blob = "audio/wav"%string
  | Some blob, Some uploaded => exists name, blob_name blob = Some name
  | _, _ => False
  end.

(** How many object urls a list of calls creates, and revokes. *)
Definition created (l : list Call) : nat :=
  List.length (filter (fun c => match c with
                                | createObjectURL _ _ => true
                                | _ => false
                                end) l).

Definition revoked (l : list Call) : nat :=
  List.length (filter (fun c => match c with
                                | revokeObjectURL _ => true
                                | _ => false
                                end) l).

(** The files posted by a list of calls. *)
Definition posted (l : list Call) : list Blob :=
  flat_map (fun c => match c with
                     | post_upload file => [file]
                     | _ => []
                     end) l.

End Screen.

Import Screen.

(* ================================================================== *)
(** * Properties *)

(** ** Numbers *)

Section NumFacts.

Lemma Qltb_lt (x y : Q) : Qltb x y = true <-> x < y.
Proof. unfold Qltb, Qlt. apply Z.ltb_lt. Qed.

Lemma Qltb_ge (x y : Q) : Qltb x y = false <-> y <= x.
Proof. unfold Qltb, Qle. rewrite Z.ltb_ge. reflexivity. Qed.

Lemma same_refl (a : num) : same a a.
Proof. destruct a; simpl; auto; reflexivity. Qed.

Lemma same_sym (a b : num) : same a b -> same b a.
Proof. destruct a, b; simpl; auto. intro H; symmetry; exact H. Qed.

Lemma same_trans (a b c : num) : same a b -> same b c -> same a c.
Proof.
  destruct a, b, c; simpl; auto; try contradiction.
  intros H1 H2. rewrite H1. exact H2.
Qed.

Lemma Qltb_same (x x' y y' : Q) :
  x == x' -> y == y' -> Qltb x y = Qltb x' y'.
Proof.
  intros Hx Hy.
  destruct (Qltb x' y') eqn:E.
  - apply Qltb_lt. apply Qltb_lt in E. rewrite Hx, Hy. exact E.
  - apply Qltb_ge. apply Qltb_ge in E. rewrite Hx, Hy. exact E.
Qed.

(** Comparison does not tell numerically equal numbers apart. *)
Lemma lt_same (a a' b b' : num) :
  same a a' -> same b b' -> lt a b = lt a' b'.
Proof.
  destruct a, a', b, b'; simpl; try contradiction; auto.
  apply Qltb_same.
Qed.

End NumFacts.

(** ** The envelope *)

Section EnvelopeFacts.

Local Open Scope nat_scope.

Lemma ceil_div_bounds (n w : nat) :
  0 < w -> n <= w * ceil_div n w /\ w * ceil_div n w < n + w.
Proof.
  intro Hw. unfold ceil_div.
  pose proof (Nat.div_mod_eq n w) as E.
  pose proof (Nat.mod_upper_bound n w ltac:(lia)) as B.
  destruct (n mod w =? 0) eqn:Z0.
  - apply Nat.eqb_eq in Z0. lia.
  - apply Nat.eqb_neq in Z0. lia.
Qed.

Lemma ceil_div_pos (n w : nat) : 0 < n -> 0 < w -> 0 < ceil_div n w.
Proof.
  intros Hn Hw. destruct (ceil_div_bounds n w Hw) as [L _].
  destruct (ceil_div n w); lia.
Qed.

Lemma fold_left_ext_in (A B : Type) (f g : A -> B -> A) (l : list B) :
  (forall a x, In x l -> f a x = g a x) ->
  forall a, fold_left f l a = fold_left g l a.
Proof.
  induction l as [|x l IH]; intros H a; simpl; [reflexivity|].
  rewrite (H a x (or_introl eq_refl)).
  apply IH. intros a' y Hy. apply H. right. exact Hy.
Qed.

(** A loop over the indices of a list is a fold over the list. *)
Lemma fold_indices (A : Type) (h : A -> option num -> A) (l : list num) :
  forall a,
    fold_left (fun acc j => h acc (nth_error l j)) (seq 0 (List.length l)) a
    = fold_left (fun acc d => h acc (Some d)) l a.
Proof.
  induction l as [|x l IH] using rev_ind; intro a; [reflexivity|].
  rewrite length_app, Nat.add_comm. simpl List.length.
  rewrite seq_S, !fold_left_app. simpl.
  rewrite nth_error_app2, Nat.sub_diag by lia. simpl.
  f_equal. rewrite <- IH.
  apply fold_left_ext_in. intros acc j Hj.
  apply in_seq in Hj. rewrite nth_error_app1 by lia. reflexivity.
Qed.

Lemma firstn_plus (A : Type) (n m : nat) (l : list A) :
  firstn (n + m) l = firstn n l ++ firstn m (skipn n l).
Proof.
  revert l. induction n as [|n IH]; intro l; [reflexivity|].
  destruct l as [|x l]; simpl.
  - now rewrite firstn_nil.
  - now rewrite IH.
Qed.

Lemma length_span (channelData : list num) (step i : nat) :
  List.length (span channelData step i)
  = Nat.min step (List.length channelData - i * step).
Proof. unfold span. now rewrite length_firstn, length_skipn. Qed.

Lemma nth_error_span (channelData : list num) (step i j : nat) :
  j < step ->
  nth_error (span channelData step i) j = nth_error channelData (i * step + j).
Proof.
  intro H. unfold span. rewrite nth_error_firstn.
  destruct (j <? step) eqn:E; [|apply Nat.ltb_ge in E; lia].
  apply nth_error_skipn.
Qed.

(** The spans follow one another without gap or overlap. *)
Lemma spans_tile (channelData : list num) (step k : nat) :
  List.concat (map (span channelData step) (seq 0 k)) = firstn (k * step) channelData.
Proof.
  induction k as [|k IH]; [reflexivity|].
  rewrite seq_S, map_app, concat_app, IH. simpl.
  rewrite app_nil_r. unfold span.
  replace (step + k * step) with (k * step + step) by lia.
  now rewrite firstn_plus.
Qed.

Lemma length_envelope (channelData : list num) (WIDTH : nat) :
  List.length (envelope channelData WIDTH) = WIDTH.
Proof. unfold envelope. now rewrite length_map, length_seq. Qed.

Lemma nth_envelope (channelData : list num) (WIDTH i : nat) (d : num * num) :
  i < WIDTH ->
  nth i (envelope channelData WIDTH) d
  = column channelData (ceil_div (List.length channelData) WIDTH) i.
Proof.
  intro H. unfold envelope.
  set (f := column channelData _).
  rewrite (nth_indep _ d (f 0)) by (now rewrite length_map, length_seq).
  rewrite map_nth, seq_nth by exact H. reflexivity.
Qed.

Lemma fold_pair (l : list num) :
  forall a b,
    fold_left (fun mm d => (min_step (fst mm) d, max_step (snd mm) d)) l (a, b)
    = (fold_left min_step l a, fold_left max_step l b).
Proof. induction l as [|x l IH]; intros a b; simpl; [reflexivity | apply IH]. Qed.

(** Reading past the end of a list changes nothing: [undefined] is
    neither below the running minimum nor above the running maximum. *)
Lemma fold_indices_beyond (l : list num) (n : nat) (a : num * num) :
  List.length l <= n ->
  fold_left (fun mm j =>
               (if lt (ToNumber (nth_error l j)) (fst mm)
                then ToNumber (nth_error l j) else fst mm,
                if gt (ToNumber (nth_error l j)) (snd mm)
                then ToNumber (nth_error l j) else snd mm))
            (seq 0 n) a
  = fold_left (fun mm d => (min_step (fst mm) d, max_step (snd mm) d)) l a.
Proof.
  intro H. replace n with (List.length l + (n - List.length l)) by lia.
  rewrite seq_app, fold_left_app. simpl.
  rewrite (fold_indices (num * num)
             (fun mm v => (if lt (ToNumber v) (fst mm) then ToNumber v else fst mm,
                           if gt (ToNumber v) (snd mm) then ToNumber v else snd mm))).
  set (b := fold_left _ l a). clearbody b.
  rewrite (fold_left_ext_in _ _ _ (fun mm _ => mm)).
  - generalize (seq (List.length l) (n - List.length l)). intro js.
    induction js as [|j js IH]; [reflexivity | exact IH].
  - intros mm j Hj. apply in_seq in Hj.
    replace (nth_error l j) with (@None num)
      by (symmetry; apply nth_error_None; lia).
    unfold gt. simpl. destruct mm as [lo hi]. simpl. now destruct hi.
Qed.

(** The index loop of a column is a scan of the samples of its span, from
    the initial values. *)
Lemma column_scans_span (channelData : list num) (step i : nat) :
  column channelData step i
  = (fold_left min_step (span channelData step i) (Fin 1),
     fold_left max_step (span channelData step i) (Fin (-1))).
Proof.
  unfold column. rewrite <- fold_pair.
  rewrite <- (fold_indices_beyond (span channelData step i) step)
    by (rewrite length_span; lia).
  apply fold_left_ext_in. intros mm j Hj. apply in_seq in Hj.
  unfold scan_datum. rewrite nth_error_span by lia. reflexivity.
Qed.

Lemma min_step_same (a b d : num) : same a b -> same (min_step a d) (min_step b d).
Proof.
  intro H. unfold min_step. rewrite (lt_same d d a b (same_refl d) H).
  destruct (lt d b); [apply same_refl | exact H].
Qed.

Lemma max_step_same (a b d : num) : same a b -> same (max_step a d) (max_step b d).
Proof.
  intro H. unfold max_step, gt. rewrite (lt_same a b d d H (same_refl d)).
  destruct (lt b d); [apply same_refl | exact H].
Qed.

Lemma fold_min_same (l : list num) :
  forall a b, same a b -> same (fold_left min_step l a) (fold_left min_step l b).
Proof.
  induction l as [|x l IH]; intros a b H; simpl; [exact H|].
  apply IH, min_step_same, H.
Qed.

Lemma fold_max_same (l : list num) :
  forall a b, same a b -> same (fold_left max_step l a) (fold_left max_step l b).
Proof.
  induction l as [|x l IH]; intros a b H; simpl; [exact H|].
  apply IH, max_step_same, H.
Qed.

(** A first sample of nominal amplitude replaces both initial values. *)
Lemma min_step_nominal (x : num) :
  within (-1) 1 x -> same (min_step (Fin 1) x) x.
Proof.
  destruct x as [q| | |]; simpl; try contradiction. intros [L U].
  unfold min_step; simpl. destruct (Qltb q 1) eqn:E; simpl; [reflexivity|].
  apply Qltb_ge in E. apply Qle_antisym; assumption.
Qed.

Lemma max_step_nominal (x : num) :
  within (-1) 1 x -> same (max_step (Fin (-1)) x) x.
Proof.
  destruct x as [q| | |]; simpl; try contradiction. intros [L U].
  unfold max_step, gt; simpl. destruct (Qltb (-1) q) eqn:E; simpl; [reflexivity|].
  apply Qltb_ge in E. apply Qle_antisym; assumption.
Qed.

End EnvelopeFacts.

(** ** The least and greatest sample of a span *)

Section LeastGreatest.

Lemma fold_min_member (l : list num) :
  forall a, fold_left min_step l a = a \/ In (fold_left min_step l a) l.
Proof.
  induction l as [|x l IH]; intro a; simpl; [now left|].
  destruct (IH (min_step a x)) as [E | I]; [|now right; right].
  rewrite E. unfold min_step. destruct (lt x a); [right; now left | now left].
Qed.

Lemma fold_max_member (l : list num) :
  forall a, fold_left max_step l a = a \/ In (fold_left max_step l a) l.
Proof.
  induction l as [|x l IH]; intro a; simpl; [now left|].
  destruct (IH (max_step a x)) as [E | I]; [|now right; right].
  rewrite E. unfold max_step. destruct (gt x a); [right; now left | now left].
Qed.

(** [least] picks an element of the list. *)
Lemma least_member (l : list num) (m : num) : least l = Some m -> In m l.
Proof.
  destruct l as [|x r]; simpl; [discriminate|]. intros [= <-].
  destruct (fold_min_member r x) as [E | I]; [rewrite E; now left | now right].
Qed.

Lemma greatest_member (l : list num) (m : num) : greatest l = Some m -> In m l.
Proof.
  destruct l as [|x r]; simpl; [discriminate|]. intros [= <-].
  destruct (fold_max_member r x) as [E | I]; [rewrite E; now left | now right].
Qed.

Lemma fold_min_below (l : list num) :
  Forall finite l ->
  forall a, finite a ->
    finite (fold_left min_step l a) /\
    lt a (fold_left min_step l a) = false /\
    forall x, In x l -> lt x (fold_left min_step l a) = false.
Proof.
  induction 1 as [|x l Hx Hl IH]; intros a Ha; simpl.
  - repeat split; [exact Ha | | contradiction].
    destruct a; simpl in *; try contradiction. apply Qltb_ge, Qle_refl.
  - assert (Hm : finite (min_step a x))
      by (unfold min_step; destruct (lt x a); assumption).
    destruct (IH _ Hm) as (F & B & A). split; [exact F|].
    set (m := fold_left min_step l (min_step a x)) in *.
    assert (Ba : lt a m = false /\ lt x m = false).
    { unfold min_step in B. destruct m as [q| | |]; try contradiction.
      destruct a as [qa| | |]; try contradiction.
      destruct x as [qx| | |]; try contradiction.
      simpl in *. destruct (Qltb qx qa) eqn:E.
      - apply Qltb_lt in E. apply Qltb_ge in B.
        split; apply Qltb_ge; lra.
      - apply Qltb_ge in E. apply Qltb_ge in B.
        split; apply Qltb_ge; lra. }
    split; [apply Ba|]. intros y [<- | Hy]; [apply Ba | apply A, Hy].
Qed.

Lemma fold_max_above (l : list num) :
  Forall finite l ->
  forall a, finite a ->
    finite (fold_left max_step l a) /\
    gt a (fold_left max_step l a) = false /\
    forall x, In x l -> gt x (fold_left max_step l a) = false.
Proof.
  induction 1 as [|x l Hx Hl IH]; intros a Ha; simpl.
  - repeat split; [exact Ha | | contradiction].
    destruct a; simpl in *; try contradiction. apply Qltb_ge, Qle_refl.
  - assert (Hm : finite (max_step a x))
      by (unfold max_step; destruct (gt x a); assumption).
    destruct (IH _ Hm) as (F & B & A). split; [exact F|].
    set (m := fold_left max_step l (max_step a x)) in *.
    assert (Ba : gt a m = false /\ gt x m = false).
    { unfold max_step, gt in *. destruct m as [q| | |]; try contradiction.
      destruct a as [qa| | |]; try contradiction.
      destruct x as [qx| | |]; try contradiction.
      simpl in *. destruct (Qltb qa qx) eqn:E.
      - apply Qltb_lt in E. apply Qltb_ge in B.
        split; apply Qltb_ge; lra.
      - apply Qltb_ge in E. apply Qltb_ge in B.
        split; apply Qltb_ge; lra. }
    split; [apply Ba|]. intros y [<- | Hy]; [apply Ba | apply A, Hy].
Qed.

(** No finite sample of the list is below [least], none above
    [greatest]. *)
Lemma least_lower_bound (l : list num) (m : num) :
  Forall finite l -> least l = Some m ->
  forall x, In x l -> lt x m = false.
Proof.
  destruct l as [|x r]; simpl; [discriminate|]. intros H [= <-].
  inversion H as [|? ? Hx Hr]; subst.
  destruct (fold_min_below r Hr x Hx) as (_ & B & A).
  intros y [<- | Hy]; [exact B | apply A, Hy].
Qed.

Lemma greatest_upper_bound (l : list num) (m : num) :
  Forall finite l -> greatest l = Some m ->
  forall x, In x l -> gt x m = false.
Proof.
  destruct l as [|x r]; simpl; [discriminate|]. intros H [= <-].
  inversion H as [|? ? Hx Hr]; subst.
  destruct (fold_max_above r Hr x Hx) as (_ & B & A).
  intros y [<- | Hy]; [exact B | apply A, Hy].
Qed.

End LeastGreatest.

(** ** The envelope the renderer draws *)

Section EnvelopeClaims.

Local Open Scope nat_scope.

Lemma draw_envelope_segments (channelData : list num) (WIDTH HEIGHT : nat) :
  draw_envelope channelData WIDTH HEIGHT
  = flat_map (fun p => draw_column (div (of_nat HEIGHT) (Fin 2)) (fst p) (snd p))
             (combine (seq 0 WIDTH) (envelope channelData WIDTH)).
Proof.
  unfold draw_envelope, envelope.
  generalize (column channelData (ceil_div (List.length channelData) WIDTH)).
  intro f. generalize (seq 0 WIDTH). intro l.
  induction l as [|i l IH]; [reflexivity|].
  cbn [flat_map map combine fst snd]. now rewrite IH.
Qed.

(** The two end points of a drawn line are [(1 + m) * HEIGHT / 2]. *)
Lemma line_end_point (m : Q) (HEIGHT : nat) :
  exists y,
    mul (add one (Fin m)) (div (of_nat HEIGHT) (Fin 2)) = Fin y /\
    (y == (1 + m) * (inject_Z (Z.of_nat HEIGHT) / 2))%Q.
Proof.
  unfold one, of_nat, add, div, mul.
  change (Qeq_bool 2 0) with false. cbv iota.
  eexists; split; [reflexivity|].
  now rewrite !Qred_correct.
Qed.

Lemma span_nominal (l : list num) :
  l <> [] -> Forall (within (-1) 1) l ->
  exists lo hi,
    least l = Some lo /\ greatest l = Some hi /\
    same (fold_left min_step l (Fin 1)) lo /\
    same (fold_left max_step l (Fin (-1))) hi.
Proof.
  destruct l as [|x r]; [congruence|]. intros _ H.
  inversion H as [|? ? Hx Hr]; subst.
  exists (fold_left min_step r x), (fold_left max_step r x). simpl.
  repeat split.
  - apply fold_min_same, min_step_nominal, Hx.
  - apply fold_max_same, max_step_nominal, Hx.
Qed.

(** C1 (amended).  For every sample buffer and canvas size, with
    [step = ceil(N / WIDTH)]: the renderer records exactly [WIDTH] pairs
    and draws, for column [i], one line from [(1 + min) * HEIGHT / 2] to
    [(1 + max) * HEIGHT / 2]; the pair of column [i] is the scan of the
    indices [i*step .. i*step + step - 1] from [min = 1.0], [max = -1.0];
    the spans follow one another without gap or overlap; and where the
    span holds a sample of the buffer and its amplitudes are within
    [-1, 1], the pair is the (min, max) amplitude over that span. *)
Theorem envelope_segments (channelData : list num) (WIDTH HEIGHT : nat) :
  let step := ceil_div (List.length channelData) WIDTH in
  let amp := div (of_nat HEIGHT) (Fin 2) in
  let segments := envelope channelData WIDTH in
  List.length segments = WIDTH /\
  draw_envelope channelData WIDTH HEIGHT
  = flat_map (fun p => [ MoveTo (fst p) (mul (add one (fst (snd p))) amp);
                         LineTo (fst p) (mul (add one (snd (snd p))) amp) ])
             (combine (seq 0 WIDTH) segments) /\
  (forall (m : Q), exists y,
      mul (add one (Fin m)) amp = Fin y /\
      (y == (1 + m) * (inject_Z (Z.of_nat HEIGHT) / 2))%Q) /\
  (forall i, i < WIDTH ->
     nth i segments (NaN, NaN)
     = fold_left (scan_datum channelData i step) (seq 0 step) (Fin 1, Fin (-1))) /\
  (forall k,
     List.concat (map (span channelData step) (seq 0 k))
     = firstn (k * step) channelData) /\
  (forall i, i < WIDTH ->
     i * step < List.length channelData ->
     Forall (within (-1) 1) (span channelData step i) ->
     exists lo hi,
       span_min_max channelData step i = (Some lo, Some hi) /\
       same (fst (nth i segments (NaN, NaN))) lo /\
       same (snd (nth i segments (NaN, NaN))) hi).
Proof.
  intros step amp segments. subst segments.
  split; [apply length_envelope|].
  split; [apply draw_envelope_segments|].
  split; [intro m; apply line_end_point|].
  split; [intros i Hi; rewrite nth_envelope by exact Hi; reflexivity|].
  split; [intro k; apply spans_tile|].
  intros i Hi Hin Hnom.
  rewrite nth_envelope by exact Hi. fold step.
  rewrite column_scans_span. simpl fst; simpl snd.
  assert (Hs : span channelData step i <> []).
  { intro E. apply (f_equal (@List.length num)) in E.
    rewrite length_span in E. simpl in E.
    assert (0 < step); [|lia].
    apply ceil_div_pos; lia. }
  destruct (span_nominal _ Hs Hnom) as (lo & hi & L & G & SL & SH).
  exists lo, hi. unfold span_min_max. rewrite L, G. auto.
Qed.

Lemma envelope_segments_witness :
  exists lo hi,
    span_min_max four_samples 2 1 = (Some lo, Some hi) /\
    same (fst (nth 1 (envelope four_samples 2) (NaN, NaN))) lo /\
    same (snd (nth 1 (envelope four_samples 2) (NaN, NaN))) hi.
Proof.
  destruct (envelope_segments four_samples 2 100) as (_ & _ & _ & _ & _ & H).
  apply (H 1).
  - lia.
  - vm_compute. lia.
  - vm_compute. repeat constructor; discriminate.
Defined.

(** C1, as stated, fails: on the 800-pixel canvas, 800 samples of
    amplitude 1.5 give one sample per column, and each column keeps the
    initial [min = 1.0], which is the amplitude of none of its samples. *)
Lemma envelope_of_spans_counterexample :
  ~ envelope_of_spans loud_samples 800.
Proof.
  intros [_ H]. destruct (H 0) as (lo & hi & E & SL & _); [lia|].
  vm_compute in E. injection E as <- <-.
  vm_compute in SL. discriminate SL.
Qed.

(** C10.  The column loop reads past the end of the buffer.  With 801
    samples on the 800-pixel canvas [step] is 2: column 799 reads index
    1598, finds [undefined], keeps [min = 1.0] and [max = -1.0], and is
    drawn as a line over the full height of the canvas. *)
Theorem envelope_reads_past_buffer :
  let channelData := repeat (Fin 0) 801 in
  List.length channelData = 801 /\
  ceil_div 801 800 = 2 /\
  existsb (fun k => 801 <=? k) (indices_read 801 800) = true /\
  nth 1598 (indices_read 801 800) 0 = 799 * 2 + 0 /\
  nth_error channelData (799 * 2 + 0) = None /\
  nth 799 (envelope channelData 800) (NaN, NaN) = (Fin 1, Fin (-1)) /\
  skipn 1598 (draw_envelope channelData 800 100)
  = [MoveTo 799 (Fin 100); LineTo 799 (Fin 0)].
Proof. vm_compute. repeat split; reflexivity. Qed.

(** Whenever the width does not divide the length, the last index read
    is outside the buffer. *)
Lemma last_index_outside (n WIDTH : nat) :
  0 < WIDTH -> n mod WIDTH <> 0 ->
  let step := ceil_div n WIDTH in
  0 < step /\ n <= (WIDTH - 1) * step + (step - 1).
Proof.
  intros HW Hm step. subst step.
  pose proof (ceil_div_bounds n WIDTH HW) as [L U].
  unfold ceil_div in *. pose proof (Nat.div_mod_eq n WIDTH) as E.
  destruct (n mod WIDTH =? 0) eqn:Z0; [apply Nat.eqb_eq in Z0; lia|].
  split; [lia|].
  pose proof (Nat.mod_upper_bound n WIDTH ltac:(lia)) as B.
  set (q := n / WIDTH) in *. set (r := n mod WIDTH) in *.
  replace (S q - 1) with q by lia.
  destruct WIDTH as [|W']; [lia|].
  replace (S W' - 1) with W' by lia. nia.
Qed.

(** A column whose span starts at or after the end of the buffer keeps
    the initial values. *)
Lemma empty_span_keeps_initial (channelData : list num) (step i : nat) :
  List.length channelData <= i * step ->
  column channelData step i = (Fin 1, Fin (-1)).
Proof.
  intro H. rewrite column_scans_span. unfold span.
  rewrite skipn_all2 by exact H. now rewrite firstn_nil.
Qed.

(** When the width divides the length, every index read is inside. *)
Lemma indices_inside (n WIDTH i j : nat) :
  0 < WIDTH -> n mod WIDTH = 0 ->
  i < WIDTH -> j < ceil_div n WIDTH -> i * ceil_div n WIDTH + j < n.
Proof.
  intros HW Hm Hi. unfold ceil_div. rewrite Hm. simpl.
  pose proof (Nat.div_mod_eq n WIDTH) as E. rewrite Hm in E.
  set (q := n / WIDTH) in *. intro Hj. nia.
Qed.

End EnvelopeClaims.

(** ** The widget between events *)

(** Unfold a handler and split on everything it branches on. *)
Ltac handler :=
  unfold dispatch, startRecording, stopRecording, ondataavailable, onstop,
    togglePlayback, updatePlaybackPosition, media_progress, handleFileSelect,
    resetAudio, clear_canvas, handleUpload_begin, handleUpload_settle,
    uploadExpenseFile, call_visualizeAudio, visualizeAudio, api_post,
    getUserMedia, new_Blob, new_File, fresh in *;
  repeat match goal with
         | |- context [match ?x with _ => _ end] =>
             lazymatch x with
             | context [match _ with _ => _ end] => fail
             | _ => destruct x eqn:?
             end
         end;
  cbn in *.

(** Bring together what is known twice about one cell. *)
Ltac tidy :=
  repeat match goal with
         | H : Some _ = Some _ |- _ => injection H as ?; subst
         | H : Some _ = None |- _ => discriminate H
         | H : None = Some _ |- _ => discriminate H
         | H1 : ?x = Some _, H2 : ?x = Some _ |- _ => rewrite H1 in H2
         | H1 : ?x = Some _, H2 : ?x = None |- _ => rewrite H1 in H2
         end.

Section WidgetFacts.

Local Open Scope nat_scope.

Lemma same_dep_refl (b : option Blob) : same_dep b b = true.
Proof. destruct b; simpl; [apply Nat.eqb_refl | reflexivity]. Qed.

(** With the dependency unchanged the render runs no effect. *)
Lemma flushEffects_idle (s : State) :
  effectDeps (fiber s) = audioBlob (hooks s) -> flushEffects s = s.
Proof. intro H. unfold flushEffects. now rewrite H, same_dep_refl. Qed.

(** The playback position a [timeupdate] computes. *)
Lemma position_bounds (time total : num) (WIDTH : nat) :
  media_clock time total ->
  within 0 (inject_Z (Z.of_nat WIDTH)) (mul (div time total) (of_nat WIDTH)).
Proof.
  assert (HW : (0 <= inject_Z (Z.of_nat WIDTH))%Q).
  { change 0%Q with (inject_Z 0). rewrite <- Zle_Qle. lia. }
  destruct time as [t| | |]; cbn [media_clock]; try contradiction.
  destruct total as [d| | |]; try tauto; intros [Ht Hd].
  - destruct Hd as [Hd Htd]. unfold div, of_nat.
    destruct (Qeq_bool d 0) eqn:E.
    { apply Qeq_bool_iff in E. lra. }
    cbn [mul within]. rewrite !Qred_correct.
    assert (0 <= t / d)%Q by (apply Qle_shift_div_l; lra).
    assert (t / d <= 1)%Q by (apply Qle_shift_div_r; lra).
    split; nra.
  - unfold div, of_nat. cbn [mul within]. rewrite Qred_correct. split; lra.
Qed.

Lemma consistent_initial : consistent initial.
Proof.
  constructor; [reflexivity | reflexivity | reflexivity | simpl; tauto
               | discriminate | discriminate |].
  constructor; simpl; eauto; discriminate.
Qed.

(** Only a new capture and a reset touch the capture, its url and the
    effect's bookkeeping. *)
Lemma dispatch_keeps_capture (e : Event) (s : State) :
  brings_capture e s = false -> e <> ClickTrash ->
  audioBlob (hooks (dispatch e s)) = audioBlob (hooks s) /\
  audioUrl (hooks (dispatch e s)) = audioUrl (hooks s) /\
  effectDeps (fiber (dispatch e s)) = effectDeps (fiber s) /\
  effectCleanup (fiber (dispatch e s)) = effectCleanup (fiber s) /\
  objectUrls (browser (dispatch e s)) = objectUrls (browser s) /\
  nextId (browser s) <= nextId (browser (dispatch e s)).
Proof.
  intros B T. destruct e; try congruence; cbn in B; handler;
    try discriminate; repeat split; auto.
Qed.

Lemma dispatch_steady (e : Event) (s : State) :
  steady s -> steady (dispatch e s).
Proof.
  intros [[drawn C] [audio A] R Idle S].
  destruct e.
  all: handler.
  all: constructor; cbn.
  all: tidy.
  all: eauto.
  all: try discriminate.
  all: try (apply Forall_app; split; auto).
  all: try (intro I; try congruence; destruct (R I) as (r & E & Q); tidy; eauto).
  all: try (intros I r E; tidy; try reflexivity; try congruence;
            try (apply (Idle I); congruence);
            try (apply (Idle I r); congruence);
            try (apply Idle; [assumption || reflexivity | reflexivity]);
            try (cbn; apply (Idle I); reflexivity)).
Qed.

Lemma flushEffects_steady (s : State) : steady s -> steady (flushEffects s).
Proof.
  intros [C A R Idle S]. unfold flushEffects, URL_createObjectURL,
    URL_revokeObjectURL, fresh.
  repeat match goal with
         | |- context [match ?x with _ => _ end] => destruct x eqn:?
         end; constructor; cbn; auto.
Qed.

Lemma Url_eqb_refl (u : Url) : Url_eqb u u = true.
Proof. apply Nat.eqb_refl. Qed.

(** The render after a new capture: the url of the previous capture, if
    any, is revoked, then a url is created for the new one. *)
Lemma flushEffects_new_capture (d : State) (blob : Blob) :
  audioBlob (hooks d) = Some blob ->
  same_dep (effectDeps (fiber d)) (Some blob) = false ->
  let url := BlobUrl (nextId (browser d)) in
  let d' := flushEffects d in
  audioBlob (hooks d') = Some blob /\
  audioUrl (hooks d') = Some url /\
  effectDeps (fiber d') = Some blob /\
  effectCleanup (fiber d') = Some url /\
  nextId (browser d') = S (nextId (browser d)) /\
  objectUrls (browser d')
  = (url, blob) :: match effectCleanup (fiber d) with
                   | Some old =>
                       filter (fun e => negb (Url_eqb (fst e) old))
                              (objectUrls (browser d))
                   | None => objectUrls (browser d)
                   end /\
  calls (browser d')
  = calls (browser d)
    ++ match effectCleanup (fiber d) with
       | Some old => [revokeObjectURL old]
       | None => []
       end
    ++ [createObjectURL blob url].
Proof.
  intros B D url d'. subst url d'. unfold flushEffects. rewrite B, D.
  destruct (effectCleanup (fiber d)) as [old|]; cbn; rewrite B; cbn;
    rewrite ?B, <- ?app_assoc; repeat split; reflexivity.
Qed.

(** The render after a reset: the url of the discarded capture is
    revoked. *)
Lemma flushEffects_no_capture (d : State) (blob : Blob) :
  audioBlob (hooks d) = None ->
  effectDeps (fiber d) = Some blob ->
  let d' := flushEffects d in
  hooks d' = hooks d /\
  effectDeps (fiber d') = None /\
  effectCleanup (fiber d') = None /\
  nextId (browser d') = nextId (browser d) /\
  objectUrls (browser d')
  = match effectCleanup (fiber d) with
    | Some old =>
        filter (fun e => negb (Url_eqb (fst e) old)) (objectUrls (browser d))
    | None => objectUrls (browser d)
    end /\
  calls (browser d')
  = calls (browser d)
    ++ match effectCleanup (fiber d) with
       | Some old => [revokeObjectURL old]
       | None => []
       end.
Proof.
  intros B D d'. subst d'. unfold flushEffects. rewrite B, D. cbn.
  destruct (effectCleanup (fiber d)) as [old|]; cbn; rewrite ?B; cbn;
    rewrite ?app_nil_r; repeat split; try reflexivity.
  all: destruct d as [h r f b]; reflexivity.
Qed.

(** What a new capture leaves before the render. *)
Lemma dispatch_new_capture (e : Event) (s : State) :
  brings_capture e s = true ->
  exists blob,
    audioBlob (hooks (dispatch e s)) = Some blob /\
    blob_id blob = nextId (browser s) /\
    nextId (browser (dispatch e s)) = S (nextId (browser s)) /\
    audioUrl (hooks (dispatch e s)) = audioUrl (hooks s) /\
    fiber (dispatch e s) = fiber s /\
    objectUrls (browser (dispatch e s)) = objectUrls (browser s) /\
    calls (browser (dispatch e s)) = calls (browser s).
Proof.
  intro B. destruct e; try discriminate B; cbn in B.
  - destruct (mediaRecorderRef (refs s)) eqn:M; [|discriminate].
    handler; tidy; eexists; repeat split; reflexivity.
  - destruct file; [|discriminate].
    handler; tidy; eexists; repeat split; reflexivity.
Qed.

(** What a reset leaves before the render. *)
Lemma dispatch_reset (s : State) :
  audioBlob (hooks (dispatch ClickTrash s)) = None /\
  audioUrl (hooks (dispatch ClickTrash s)) = None /\
  isPlaying (hooks (dispatch ClickTrash s)) = false /\
  playbackPosition (hooks (dispatch ClickTrash s)) = Fin 0 /\
  audioSource (hooks (dispatch ClickTrash s)) = None /\
  fiber (dispatch ClickTrash s) = fiber s /\
  browser (dispatch ClickTrash s) = browser s.
Proof. handler; repeat split; reflexivity. Qed.

Lemma new_capture_changes_dep (e : Event) (s : State) (blob : Blob) :
  consistent s ->
  fiber (dispatch e s) = fiber s ->
  blob_id blob = nextId (browser s) ->
  same_dep (effectDeps (fiber (dispatch e s))) (Some blob) = false.
Proof.
  intros C Hf Hid. rewrite Hf, (c_deps s C).
  destruct (audioBlob (hooks s)) as [old|] eqn:O; [|reflexivity].
  simpl. apply Nat.eqb_neq. pose proof (c_blob_id s C old O). lia.
Qed.

Lemma held_filtered (s : State) :
  consistent s ->
  match effectCleanup (fiber s) with
  | Some old =>
      filter (fun e => negb (Url_eqb (fst e) old)) (objectUrls (browser s))
  | None => objectUrls (browser s)
  end = [].
Proof.
  intro C. rewrite (c_cleanup s C), (c_urls s C). unfold held.
  destruct (audioUrl (hooks s)) as [u|] eqn:U; [|reflexivity].
  destruct (audioBlob (hooks s)) as [b|] eqn:O; [|reflexivity].
  simpl. now rewrite Url_eqb_refl.
Qed.

Lemma trash_or_not (e : Event) : e = ClickTrash \/ e <> ClickTrash.
Proof. destruct e; (now left) || (right; discriminate). Qed.

(** One turn of the event loop keeps the widget consistent. *)
Lemma consistent_handle (e : Event) (s : State) :
  consistent s -> consistent (handle e s).
Proof.
  intros C. unfold handle.
  pose proof (dispatch_steady e s (c_steady s C)) as St.
  destruct (brings_capture e s) eqn:B.
  - destruct (dispatch_new_capture e s B)
      as (blob & Hb & Hid & Hn & Hu & Hf & Ho & Hc).
    pose proof (new_capture_changes_dep e s blob C Hf Hid) as D.
    destruct (flushEffects_new_capture _ blob Hb D)
      as (F1 & F2 & F3 & F4 & F5 & F6 & F7).
    constructor.
    + now rewrite F3, F1.
    + now rewrite F4, F2.
    + rewrite F6. unfold held at 1. rewrite F1, F2. f_equal.
      rewrite Hf, Ho. apply held_filtered, C.
    + rewrite F1, F2. split; discriminate.
    + intros b0 E. rewrite F1 in E. injection E as <-. lia.
    + intros u E. rewrite F2 in E. injection E as <-. simpl. lia.
    + apply flushEffects_steady, St.
  - destruct (trash_or_not e) as [-> | T].
    + destruct (dispatch_reset s) as (R1 & R2 & _ & _ & _ & Rf & Rb).
      destruct (audioBlob (hooks s)) as [blob|] eqn:O.
      * assert (D : effectDeps (fiber (dispatch ClickTrash s)) = Some blob)
          by (now rewrite Rf, (c_deps s C)).
        destruct (flushEffects_no_capture _ blob R1 D)
          as (F1 & F2 & F3 & F4 & F5 & F6).
        constructor.
        -- now rewrite F2, F1, R1.
        -- now rewrite F3, F1, R2.
        -- rewrite F5. unfold held. rewrite F1, R2, Rf, Rb.
           apply held_filtered, C.
        -- rewrite F1, R1, R2. tauto.
        -- intros b0 E. rewrite F1, R1 in E. discriminate.
        -- intros u E. rewrite F1, R2 in E. discriminate.
        -- apply flushEffects_steady, St.
      * rewrite flushEffects_idle
          by (now rewrite Rf, (c_deps s C), R1).
        constructor.
        -- now rewrite Rf, (c_deps s C), R1.
        -- rewrite Rf, (c_cleanup s C), R2. now apply (c_both s C).
        -- rewrite Rb, (c_urls s C). unfold held. rewrite R2, O.
           now destruct (audioUrl (hooks s)).
        -- rewrite R1, R2. tauto.
        -- intros b0 E. rewrite R1 in E. discriminate.
        -- intros u E. rewrite R2 in E. discriminate.
        -- exact St.
    + destruct (dispatch_keeps_capture e s B T)
        as (K1 & K2 & K3 & K4 & K5 & K6).
      rewrite flushEffects_idle by (now rewrite K3, K1, (c_deps s C)).
      constructor.
      * now rewrite K3, K1, (c_deps s C).
      * now rewrite K4, K2, (c_cleanup s C).
      * rewrite K5, (c_urls s C). unfold held. now rewrite K1, K2.
      * rewrite K1, K2. apply (c_both s C).
      * intros b0 E. rewrite K1 in E. pose proof (c_blob_id s C b0 E). lia.
      * intros u E. rewrite K2 in E. pose proof (c_url_id s C u E). lia.
      * exact St.
Qed.

(** Every reachable state is consistent. *)
Lemma reachable_consistent (s : State) : reachable s -> consistent s.
Proof.
  induction 1 as [|e s R IH]; [apply consistent_initial|].
  apply consistent_handle; assumption.
Qed.

(** On a reachable state an event that brings no capture and does not
    reset is its handler alone. *)
Lemma handle_is_dispatch (e : Event) (s : State) :
  consistent s -> brings_capture e s = false -> e <> ClickTrash ->
  handle e s = dispatch e s.
Proof.
  intros C B T. unfold handle.
  destruct (dispatch_keeps_capture e s B T) as (K1 & _ & K3 & _).
  apply flushEffects_idle. now rewrite K3, K1, (c_deps s C).
Qed.

End WidgetFacts.

(** ** Upload *)

Section UploadClaims.

Local Open Scope nat_scope.

Lemma host_args_app (l l' : list Call) :
  host_args (l ++ l') = host_args l ++ host_args l'.
Proof. apply flat_map_app. Qed.

(** The calls one turn of the event loop adds. *)
Lemma handle_calls (e : Event) (s : State) :
  consistent s ->
  exists more,
    calls (browser (handle e s)) = calls (browser s) ++ more /\
    (hands_over e = false -> host_args more = []).
Proof.
  intro C. destruct (brings_capture e s) eqn:B.
  - destruct (dispatch_new_capture e s B)
      as (blob & Hb & Hid & Hn & Hu & Hf & Ho & Hc).
    pose proof (new_capture_changes_dep e s blob C Hf Hid) as D.
    destruct (flushEffects_new_capture _ blob Hb D)
      as (_ & _ & _ & _ & _ & _ & F7).
    unfold handle. rewrite F7, Hc. eexists; split; [reflexivity|].
    intros _. now destruct (effectCleanup (fiber (dispatch e s))).
  - destruct (trash_or_not e) as [-> | T].
    + destruct (dispatch_reset s) as (R1 & R2 & _ & _ & _ & Rf & Rb).
      unfold handle.
      destruct (audioBlob (hooks s)) as [blob|] eqn:O.
      * assert (D : effectDeps (fiber (dispatch ClickTrash s)) = Some blob)
          by (now rewrite Rf, (c_deps s C)).
        destruct (flushEffects_no_capture _ blob R1 D)
          as (_ & _ & _ & _ & _ & F6).
        rewrite F6, Rb. eexists; split; [reflexivity|].
        intros _. now destruct (effectCleanup (fiber (dispatch ClickTrash s))).
      * rewrite flushEffects_idle by (now rewrite Rf, (c_deps s C), R1).
        rewrite Rb. exists []. now rewrite app_nil_r.
    + rewrite (handle_is_dispatch e s C B T).
      destruct e; try congruence; cbn in B; handler; try discriminate.
      all: try (exists []; now rewrite app_nil_r).
      all: try (eexists; split; [reflexivity|]; intros; reflexivity).
      all: eexists; split; [reflexivity|]; cbn; congruence.
Qed.

(** The settling of an upload in flight, handler alone. *)
Lemma settle_is_dispatch (s : State) (outcome : HttpOutcome) (hostThrows : bool) :
  consistent s ->
  handle (UploadSettled outcome hostThrows) s
  = handleUpload_settle outcome hostThrows s.
Proof.
  intro C.
  now rewrite (handle_is_dispatch (UploadSettled outcome hostThrows) s C eq_refl)
    by discriminate.
Qed.

(** C2, as stated, fails.  The capture [voice_note] is held and
    submitted, and the server answers 200 with the JSON body [null]: a
    2xx response, after which the host's [onUploadComplete] has not been
    called at all, and the unexpected-error message is shown. *)
Lemma null_body_success_counterexample :
  audioBlob (hooks with_capture) <> None /\
  is_success (UploadSettled (HttpResponse 200 JsonNull) false) = true /\
  host_calls
    (handle (UploadSettled (HttpResponse 200 JsonNull) false)
            (handle ClickSubmit with_capture))
  = [] /\
  errorMessage
    (hooks (handle (UploadSettled (HttpResponse 200 JsonNull) false)
                   (handle ClickSubmit with_capture)))
  = Some msg_unexpected.
Proof. repeat split. discriminate. Qed.

(** C2, amended.  Every upload of a held capture that receives a 2xx
    response whose body is not [null] calls the host's [onUploadComplete]
    exactly once, with the expense of that response: the settling appends
    that one call, submitting the capture and then receiving the response
    adds exactly it to the host's calls, and no other event calls the
    host; a 2xx response whose body is [null] adds no call at all. *)
Theorem host_called_once_per_success (s : State) :
  reachable s ->
  (forall status data hostThrows,
      0 < pendingUploads (fiber s) -> validateStatus status = true ->
      calls (browser (handle (UploadSettled (HttpResponse status (JsonData data))
                                            hostThrows) s))
      = calls (browser s) ++ [onUploadComplete (expense data)]) /\
  (forall blob status data hostThrows,
      audioBlob (hooks s) = Some blob -> validateStatus status = true ->
      let s1 := handle ClickSubmit s in
      let s2 := handle (UploadSettled (HttpResponse status (JsonData data))
                                      hostThrows) s1 in
      0 < pendingUploads (fiber s1) /\
      host_calls s1 = host_calls s /\
      host_calls s2 = host_calls s ++ [expense data]) /\
  (forall e, hands_over e = false -> host_calls (handle e s) = host_calls s) /\
  (forall status hostThrows,
      calls (browser (handle (UploadSettled (HttpResponse status JsonNull)
                                            hostThrows) s))
      = calls (browser s)).
Proof.
  intro R. pose proof (reachable_consistent s R) as C.
  assert (Settle : forall s status data hostThrows,
             consistent s ->
             0 < pendingUploads (fiber s) -> validateStatus status = true ->
             calls (browser (handle (UploadSettled (HttpResponse status (JsonData data))
                                                   hostThrows) s))
             = calls (browser s) ++ [onUploadComplete (expense data)]).
  { clear. intros s status data hostThrows C Hp Hv.
    rewrite (settle_is_dispatch s _ hostThrows C).
    unfold handleUpload_settle, api_post. rewrite Hv.
    destruct (pendingUploads (fiber s)); [lia|].
    now destruct hostThrows. }
  assert (Others : forall s e, consistent s -> hands_over e = false ->
                               host_calls (handle e s) = host_calls s).
  { clear. intros s e C H. unfold host_calls.
    destruct (handle_calls e s C) as (more & E & N).
    rewrite E, host_args_app, (N H). apply app_nil_r. }
  split; [|split; [|split]].
  - intros; now apply Settle.
  - intros blob status data hostThrows Hb Hv s1 s2.
    assert (C1 : consistent s1) by (now apply consistent_handle).
    assert (P1 : 0 < pendingUploads (fiber s1)).
    { subst s1. rewrite (handle_is_dispatch ClickSubmit s C eq_refl) by discriminate.
      cbn. unfold handleUpload_begin. rewrite Hb. cbn. lia. }
    repeat split; [exact P1 | now apply Others |].
    subst s2. unfold host_calls at 1.
    rewrite (Settle s1 status data hostThrows C1 P1 Hv), host_args_app.
    fold (host_calls s1). subst s1. now rewrite Others.
  - intros e H. now apply Others.
  - intros status hostThrows.
    rewrite (settle_is_dispatch s _ hostThrows C).
    unfold handleUpload_settle, api_post.
    destruct (pendingUploads (fiber s)); [reflexivity|].
    destruct (validateStatus status); [reflexivity|].
    now destruct (status =? 422).
Qed.

Lemma host_called_once_per_success_witness :
  host_calls
    (handle (UploadSettled
               (HttpResponse 201 (JsonData (mkResponseData (Some "ok"%string) (Some lunch))))
               false)
            (handle ClickSubmit with_capture))
  = host_calls with_capture ++ [Some lunch].
Proof.
  assert (R : reachable with_capture)
    by (apply reachable_handle, reachable_initial).
  destruct (host_called_once_per_success with_capture R) as (_ & H & _).
  destruct (H (mkBlob 0 (Some (picked_name voice_note)) (picked_type voice_note)
                      (picked_bytes voice_note))
              201 (mkResponseData (Some "ok"%string) (Some lunch)) false
              eq_refl eq_refl) as (_ & _ & E).
  exact E.
Defined.




End UploadClaims.

(** ** Captures, object urls and the microphone *)

Section CaptureClaims.

Local Open Scope nat_scope.

Lemma reachable_run (es : list Event) :
  forall s, reachable s -> reachable (run es s).
Proof.
  induction es as [|e es IH]; intros s R; [exact R|].
  apply IH. now apply reachable_handle.
Qed.

(** C6.  In every reachable state the object urls alive are exactly the
    one of the held capture, so at most one; capture and url are held
    together or not at all; and when a chosen file or a finished recording
    arrives while a capture is held, the new capture and a new url take
    their place, the old url having been revoked before the new one was
    created. *)
Theorem one_capture_one_url (s : State) :
  reachable s ->
  objectUrls (browser s) = held s /\
  List.length (objectUrls (browser s)) <= 1 /\
  (audioBlob (hooks s) = None <-> audioUrl (hooks s) = None) /\
  forall e blob url,
    brings_capture e s = true ->
    audioBlob (hooks s) = Some blob ->
    audioUrl (hooks s) = Some url ->
    exists blob' url',
      audioBlob (hooks (handle e s)) = Some blob' /\
      blob_id blob' <> blob_id blob /\
      audioUrl (hooks (handle e s)) = Some url' /\
      url' <> url /\
      objectUrls (browser (handle e s)) = [(url', blob')] /\
      calls (browser (handle e s))
      = calls (browser s) ++ [revokeObjectURL url; createObjectURL blob' url'].
Proof.
  intro R. pose proof (reachable_consistent s R) as C.
  split; [apply (c_urls s C)|].
  split.
  { rewrite (c_urls s C). unfold held.
    destruct (audioUrl (hooks s)), (audioBlob (hooks s)); simpl; lia. }
  split; [apply (c_both s C)|].
  intros e blob url B Hb Hu.
  destruct (dispatch_new_capture e s B)
    as (blob' & Hb' & Hid & Hn & Hu' & Hf & Ho & Hc).
  pose proof (new_capture_changes_dep e s blob' C Hf Hid) as D.
  destruct (flushEffects_new_capture _ blob' Hb' D)
    as (F1 & F2 & _ & _ & _ & F6 & F7).
  fold (handle e s) in F1, F2, F6, F7.
  exists blob', (BlobUrl (nextId (browser (dispatch e s)))).
  repeat split.
  - exact F1.
  - pose proof (c_blob_id s C blob Hb). lia.
  - exact F2.
  - intro E. pose proof (c_url_id s C url Hu) as L.
    rewrite <- E in L. simpl in L. lia.
  - rewrite F6, Hf, Ho. f_equal. apply held_filtered, C.
  - rewrite F7, Hf, Hc, (c_cleanup s C), Hu. reflexivity.
Qed.

Lemma one_capture_one_url_witness :
  exists blob' url',
    audioBlob (hooks (handle (FileChosen (Some not_audio) DecodeRejected) with_capture))
    = Some blob' /\
    blob_id blob' <> 0 /\
    audioUrl (hooks (handle (FileChosen (Some not_audio) DecodeRejected) with_capture))
    = Some url' /\
    url' <> BlobUrl 1 /\
    objectUrls (browser (handle (FileChosen (Some not_audio) DecodeRejected) with_capture))
    = [(url', blob')] /\
    calls (browser (handle (FileChosen (Some not_audio) DecodeRejected) with_capture))
    = calls (browser with_capture)
      ++ [revokeObjectURL (BlobUrl 1); createObjectURL blob' url'].
Proof.
  assert (R : reachable with_capture)
    by (apply reachable_handle, reachable_initial).
  destruct (one_capture_one_url with_capture R) as (_ & _ & _ & H).
  exact (H (FileChosen (Some not_audio) DecodeRejected)
           (mkBlob 0 (Some (picked_name voice_note)) (picked_type voice_note)
                   (picked_bytes voice_note))
           (BlobUrl 1) eq_refl eq_refl eq_refl).
Defined.

(** C7, as stated, fails: after a recording is stopped, and after the
    capture is then reset, the stream obtained for it is still live. *)
Lemma mic_released_counterexample :
  reachable recorded_once /\ ~ mic_released recorded_once /\
  reachable recorded_and_reset /\ ~ mic_released recorded_and_reset.
Proof.
  assert (R : reachable recorded_once)
    by (apply reachable_run, reachable_initial).
  repeat split.
  - exact R.
  - intro H. vm_compute in H. inversion H. discriminate.
  - apply reachable_handle, R.
  - intro H. vm_compute in H. inversion H. discriminate.
Qed.

(** The render leaves hooks other than [audioUrl], the refs and the
    streams alone. *)
Lemma flushEffects_frame (d : State) :
  refs (flushEffects d) = refs d /\
  micStreams (browser (flushEffects d)) = micStreams (browser d) /\
  playbackPosition (hooks (flushEffects d)) = playbackPosition (hooks d) /\
  isPlaying (hooks (flushEffects d)) = isPlaying (hooks d) /\
  isRecording (hooks (flushEffects d)) = isRecording (hooks d) /\
  errorMessage (hooks (flushEffects d)) = errorMessage (hooks d) /\
  audioSource (hooks (flushEffects d)) = audioSource (hooks d) /\
  audioBlob (hooks (flushEffects d)) = audioBlob (hooks d).
Proof.
  unfold flushEffects, URL_createObjectURL, URL_revokeObjectURL, fresh.
  repeat match goal with
         | |- context [match ?x with _ => _ end] => destruct x eqn:?
         end; cbn; repeat split; reflexivity.
Qed.

(** The streams after one turn of the event loop: those before, and the
    one a granted [getUserMedia] adds. *)
Lemma handle_streams (e : Event) (s : State) :
  micStreams (browser (handle e s))
  = micStreams (browser s)
    ++ match e with
       | ClickRecord MicGranted => [mkMediaStream (nextId (browser s)) true]
       | _ => []
       end.
Proof.
  unfold handle. destruct (flushEffects_frame (dispatch e s)) as (_ & -> & _).
  destruct e; handler; rewrite ?app_nil_r; reflexivity.
Qed.

(** C7 (amended).  Stopping makes the recorder inactive and clears the
    recording flag, resetting clears the capture and its url; neither
    touches the microphone stream: no handler stops its tracks, so every
    stream obtained from [getUserMedia] stays live in every reachable
    state. *)
Theorem microphone_stream_stays_live (s : State) :
  reachable s ->
  Forall (fun m => stream_live m = true) (micStreams (browser s)) /\
  (forall e, exists more,
      micStreams (browser (handle e s)) = micStreams (browser s) ++ more) /\
  (let s' := handle ClickStop s in
   isRecording (hooks s') = false /\
   (forall r, mediaRecorderRef (refs s') = Some r -> rec_state r = inactive) /\
   micStreams (browser s') = micStreams (browser s)) /\
  (let s' := handle ClickTrash s in
   audioBlob (hooks s') = None /\
   audioUrl (hooks s') = None /\
   mediaRecorderRef (refs s') = mediaRecorderRef (refs s) /\
   micStreams (browser s') = micStreams (browser s)).
Proof.
  intro R. pose proof (reachable_consistent s R) as C.
  split; [apply (st_streams s (c_steady s C))|].
  split; [intro e; eexists; apply handle_streams|].
  split.
  - cbv zeta. rewrite handle_streams, app_nil_r.
    rewrite (handle_is_dispatch ClickStop s C eq_refl) by discriminate.
    pose proof (st_idle s (c_steady s C)) as Idle.
    cbn. unfold stopRecording.
    destruct (mediaRecorderRef (refs s)) as [r|] eqn:M.
    + destruct (isRecording (hooks s)) eqn:I; cbn.
      * repeat split. intros r' [= <-]. reflexivity.
      * repeat split; [exact I|]. rewrite M. intros r' [= <-].
        now apply (Idle eq_refl r).
    + repeat split.
      * destruct (isRecording (hooks s)) eqn:I; [|reflexivity].
        destruct (st_recording s (c_steady s C) I) as (r & E & _).
        congruence.
      * rewrite M. discriminate.
  - cbv zeta. rewrite handle_streams, app_nil_r. unfold handle.
    destruct (flushEffects_frame (dispatch ClickTrash s))
      as (-> & _ & _ & _ & _ & _ & _ & ->).
    pose proof (consistent_handle ClickTrash s C) as C'.
    destruct (dispatch_reset s) as (R1 & _).
    repeat split.
    + exact R1.
    + apply (c_both _ C'). unfold handle.
      destruct (flushEffects_frame (dispatch ClickTrash s))
        as (_ & _ & _ & _ & _ & _ & _ & ->).
      exact R1.
    + handler; reflexivity.
Qed.

Lemma microphone_stream_stays_live_witness :
  Forall (fun m => stream_live m = true) (micStreams (browser recorded_once)) /\
  micStreams (browser (handle ClickTrash recorded_once))
  = micStreams (browser recorded_once).
Proof.
  assert (R : reachable recorded_once)
    by (apply reachable_run, reachable_initial).
  destruct (microphone_stream_stays_live recorded_once R)
    as (L & _ & _ & _ & _ & _ & T).
  exact (conj L T).
Defined.

End CaptureClaims.

(** ** Playback *)

Section PlaybackClaims.

Local Open Scope nat_scope.

Lemma clocked_reachable (s : State) : reachable_clocked s -> reachable s.
Proof.
  induction 1 as [|e s _ IH _]; [apply reachable_initial|].
  now apply reachable_handle.
Qed.

Lemma half_played_clocked : reachable_clocked half_played.
Proof.
  apply clocked_handle.
  - apply clocked_handle; [apply clocked_initial | exact I].
  - vm_compute. intuition discriminate.
Qed.

(** The position a [timeupdate] stores: the played fraction times the
    width of the canvas. *)
Lemma timeupdate_position (s : State) (t d : Q) :
  consistent s -> (0 < d)%Q ->
  exists q,
    playbackPosition (hooks (handle (AudioTimeUpdate (Fin t) (Fin d)) s)) = Fin q /\
    (q == t / d * 800)%Q.
Proof.
  intros C Hd.
  rewrite (handle_is_dispatch (AudioTimeUpdate (Fin t) (Fin d)) s C eq_refl)
    by discriminate.
  destruct (st_canvas s (c_steady s C)) as (drawn & Hc).
  destruct (st_audio s (c_steady s C)) as (audio & Ha).
  unfold dispatch, media_progress. rewrite Ha.
  unfold updatePlaybackPosition. cbn -[mul div of_nat]. rewrite Hc.
  cbn -[mul div of_nat]. unfold div, of_nat.
  destruct (Qeq_bool d 0) eqn:E; [apply Qeq_bool_iff in E; lra|].
  unfold mul. eexists; split; [reflexivity|]. rewrite !Qred_correct. reflexivity.
Qed.

(** A plausible [timeupdate] stores a position on the canvas. *)
Lemma timeupdate_within (s : State) (time total : num) :
  consistent s -> media_clock time total ->
  within 0 800 (playbackPosition (hooks (handle (AudioTimeUpdate time total) s))).
Proof.
  intros C P.
  rewrite (handle_is_dispatch (AudioTimeUpdate time total) s C eq_refl)
    by discriminate.
  destruct (st_canvas s (c_steady s C)) as (drawn & Hc).
  destruct (st_audio s (c_steady s C)) as (audio & Ha).
  unfold dispatch, media_progress. rewrite Ha.
  unfold updatePlaybackPosition. cbn -[mul div of_nat]. rewrite Hc.
  cbn -[mul div of_nat]. exact (position_bounds time total 800 P).
Qed.

(** Only a time update and a reset change the position. *)
Lemma handle_keeps_position (e : Event) (s : State) :
  moves_position e = false ->
  playbackPosition (hooks (handle e s)) = playbackPosition (hooks s).
Proof.
  intros M. unfold handle.
  destruct (flushEffects_frame (dispatch e s)) as (_ & _ & -> & _).
  destruct e; try discriminate M; handler; reflexivity.
Qed.

Lemma reset_position (s : State) :
  playbackPosition (hooks (handle ClickTrash s)) = Fin 0.
Proof.
  unfold handle.
  destruct (flushEffects_frame (dispatch ClickTrash s)) as (_ & _ & -> & _).
  apply dispatch_reset.
Qed.

Lemma position_within (s : State) :
  reachable_clocked s -> within 0 800 (playbackPosition (hooks s)).
Proof.
  induction 1 as [|e s R IH P].
  - split; unfold Qle; simpl; lia.
  - pose proof (reachable_consistent s (clocked_reachable s R)) as C.
    destruct (moves_position e) eqn:M.
    + destruct e; try discriminate M.
      * now apply timeupdate_within.
      * rewrite reset_position. split; unfold Qle; simpl; lia.
    + now rewrite handle_keeps_position.
Qed.

(** C8, as stated, fails: half way through a clip the position held is
    400, not a fraction in [0, 1]. *)
Lemma position_fraction_counterexample :
  reachable_clocked half_played /\
  playbackPosition (hooks half_played) = Fin 400 /\
  ~ within 0 1 (playbackPosition (hooks half_played)).
Proof.
  split; [exact half_played_clocked | split].
  - reflexivity.
  - vm_compute. intros [_ H]. apply H. reflexivity.
Qed.

(** C8 (amended).  In every state reached with the audio element
    reporting [0 <= currentTime <= duration], [duration > 0], the playback
    position is a pixel offset on the 800-pixel canvas, between 0 and 800:
    a time update stores the played fraction of the total duration
    multiplied by the canvas width, a reset stores 0, and no other event
    changes it. *)
Theorem position_is_pixel_offset (s : State) :
  reachable_clocked s ->
  within 0 800 (playbackPosition (hooks s)) /\
  (forall t d, (0 < d)%Q ->
     exists q,
       playbackPosition (hooks (handle (AudioTimeUpdate (Fin t) (Fin d)) s)) = Fin q /\
       (q == t / d * 800)%Q) /\
  playbackPosition (hooks (handle ClickTrash s)) = Fin 0 /\
  (forall e, moves_position e = false ->
             playbackPosition (hooks (handle e s)) = playbackPosition (hooks s)).
Proof.
  intro R.
  pose proof (reachable_consistent s (clocked_reachable s R)) as C.
  split; [now apply position_within|].
  split; [intros t d Hd; now apply timeupdate_position|].
  split; [apply reset_position|].
  intros e M. now apply handle_keeps_position.
Qed.

Lemma position_is_pixel_offset_witness :
  within 0 800 (playbackPosition (hooks half_played)).
Proof.
  apply position_is_pixel_offset. apply clocked_handle.
  - apply clocked_handle; [apply clocked_initial | exact I].
  - vm_compute. intuition discriminate.
Defined.

(** C9.  When the clip ends only [isPlaying] changes, to false: every
    other hook, the refs and the browser state are as before, so the
    position stays where the last time update left it, at the right edge
    of the canvas when that update was the one at the end of the clip.
    From a widget that is playing the flag does flip, from true to false.
    A reset pauses the audio element, rewinds it, and sets the position to
    0 and [isPlaying] to false, also while playing. *)
Theorem ended_keeps_position (s : State) :
  reachable s ->
  (let s' := handle AudioEnded s in
   s' = setIsPlaying false s /\
   isPlaying (hooks s') = false /\
   playbackPosition (hooks s') = playbackPosition (hooks s) /\
   isRecording (hooks s') = isRecording (hooks s) /\
   audioBlob (hooks s') = audioBlob (hooks s) /\
   audioUrl (hooks s') = audioUrl (hooks s) /\
   audioSource (hooks s') = audioSource (hooks s) /\
   isLoading (hooks s') = isLoading (hooks s) /\
   errorMessage (hooks s') = errorMessage (hooks s) /\
   refs s' = refs s /\ fiber s' = fiber s /\ browser s' = browser s) /\
  (let p := handle AudioPlay s in
   isPlaying (hooks p) = true /\
   isPlaying (hooks (handle AudioEnded p)) = false /\
   playbackPosition (hooks (handle AudioEnded p)) = playbackPosition (hooks s)) /\
  (forall d, (0 < d)%Q ->
     let p := handle (AudioTimeUpdate (Fin d) (Fin d)) (handle AudioPlay s) in
     isPlaying (hooks p) = true /\
     isPlaying (hooks (handle AudioEnded p)) = false /\
     exists q,
       playbackPosition (hooks p) = Fin q /\
       playbackPosition (hooks (handle AudioEnded p)) = Fin q /\ (q == 800)%Q) /\
  (forall d, (0 < d)%Q ->
     exists q,
       playbackPosition
         (hooks (handle AudioEnded (handle (AudioTimeUpdate (Fin d) (Fin d)) s)))
       = Fin q /\ (q == 800)%Q) /\
  (let s' := handle ClickTrash s in
   playbackPosition (hooks s') = Fin 0 /\
   isPlaying (hooks s') = false /\
   exists audio, audioRef (refs s') = Some audio /\
                 paused audio = true /\ currentTime audio = Fin 0) /\
  (let s' := handle ClickTrash (handle AudioPlay s) in
   isPlaying (hooks (handle AudioPlay s)) = true /\
   playbackPosition (hooks s') = Fin 0 /\
   isPlaying (hooks s') = false).
Proof.
  intro R. pose proof (reachable_consistent s R) as C.
  assert (Ended : forall s, consistent s ->
                            handle AudioEnded s = setIsPlaying false s).
  { clear. intros s C.
    now rewrite (handle_is_dispatch AudioEnded s C eq_refl) by discriminate. }
  assert (Play : forall s, consistent s ->
                           handle AudioPlay s = setIsPlaying true s).
  { clear. intros s C.
    now rewrite (handle_is_dispatch AudioPlay s C eq_refl) by discriminate. }
  assert (Reset : forall s, consistent s ->
            playbackPosition (hooks (handle ClickTrash s)) = Fin 0 /\
            isPlaying (hooks (handle ClickTrash s)) = false /\
            exists audio, audioRef (refs (handle ClickTrash s)) = Some audio /\
                          paused audio = true /\ currentTime audio = Fin 0).
  { clear. intros s C. unfold handle.
    destruct (flushEffects_frame (dispatch ClickTrash s))
      as (-> & _ & -> & -> & _).
    destruct (dispatch_reset s) as (_ & _ & R3 & R4 & _).
    repeat split; [exact R4 | exact R3 |].
    destruct (st_audio s (c_steady s C)) as (audio & Ha).
    handler; tidy; eexists; repeat split; reflexivity. }
  pose proof (consistent_handle AudioPlay s C) as Cp.
  split; [|split; [|split; [|split; [|split]]]].
  - cbv zeta. rewrite (Ended s C). repeat split.
  - cbv zeta. rewrite (Ended _ Cp), (Play s C). repeat split.
  - intros d Hd p. subst p.
    pose proof (consistent_handle (AudioTimeUpdate (Fin d) (Fin d)) _ Cp) as Ct.
    rewrite (Ended _ Ct).
    destruct (timeupdate_position _ d d Cp Hd) as (q & E & Q).
    assert (P : isPlaying (hooks (handle (AudioTimeUpdate (Fin d) (Fin d))
                                         (handle AudioPlay s))) = true).
    { unfold handle at 1.
      destruct (flushEffects_frame
                  (dispatch (AudioTimeUpdate (Fin d) (Fin d)) (handle AudioPlay s)))
        as (_ & _ & _ & -> & _).
      rewrite (Play s C). handler; reflexivity. }
    split; [exact P | split; [reflexivity|]].
    exists q. repeat split; [exact E | exact E |]. rewrite Q. field. lra.
  - intros d Hd.
    rewrite (Ended _ (consistent_handle _ s C)). cbn.
    destruct (timeupdate_position s d d C Hd) as (q & E & Q).
    exists q. split; [exact E|]. rewrite Q. field. lra.
  - exact (Reset s C).
  - cbv zeta. destruct (Reset _ Cp) as (R1 & R2 & _).
    rewrite (Play s C) at 1. repeat split; assumption.
Qed.

Lemma ended_keeps_position_witness :
  (isPlaying (hooks played_to_end) = true /\
   playbackPosition (hooks played_to_end) = Fin 800) /\
  isPlaying (hooks (handle AudioEnded played_to_end)) = false /\
  playbackPosition (hooks (handle AudioEnded played_to_end)) = Fin 800.
Proof.
  assert (R : reachable played_to_end).
  { apply reachable_run, reachable_handle, reachable_initial. }
  destruct (ended_keeps_position played_to_end R) as ((_ & E & P & _) & _).
  split; [split; reflexivity|].
  split; [exact E | rewrite P; reflexivity].
Defined.

(** Toggling while playing pauses the audio element. *)
Lemma toggle_while_playing_pauses (s : State) (audio : AudioElement) (a : bool) :
  audioRef (refs s) = Some audio -> isPlaying (hooks s) = true ->
  audioRef (refs (handle (ClickPlayPause a) s)) = Some (audio_pause audio) /\
  isPlaying (hooks (handle (ClickPlayPause a) s)) = false /\
  errorMessage (hooks (handle (ClickPlayPause a) s)) = errorMessage (hooks s).
Proof.
  intros Ha Hp. unfold handle.
  destruct (flushEffects_frame (dispatch (ClickPlayPause a) s))
    as (-> & _ & _ & -> & _ & -> & _).
  cbn. unfold togglePlayback. rewrite Ha, Hp. cbn. repeat split.
Qed.

(** Toggling while not playing, with a [play()] that is rejected: the
    error is reported and [isPlaying] becomes true all the same. *)
Lemma toggle_rejected_play (s : State) (audio : AudioElement) :
  audioRef (refs s) = Some audio -> isPlaying (hooks s) = false ->
  audioRef (refs (handle (ClickPlayPause false) s)) = Some audio /\
  isPlaying (hooks (handle (ClickPlayPause false) s)) = true /\
  errorMessage (hooks (handle (ClickPlayPause false) s)) = Some msg_playback.
Proof.
  intros Ha Hp. unfold handle.
  destruct (flushEffects_frame (dispatch (ClickPlayPause false) s))
    as (-> & _ & _ & -> & _ & -> & _).
  cbn. unfold togglePlayback. rewrite Ha, Hp. cbn. rewrite Ha. repeat split.
Qed.

(** C5.  With the chosen [voice_note] held and not playing, a toggle whose
    [play()] is rejected reports the playback error, leaves the audio
    element paused, and sets [isPlaying] to true. *)
Theorem rejected_play_sets_isPlaying :
  let s := handle (ClickPlayPause false) with_capture in
  isPlaying (hooks with_capture) = false /\
  isPlaying (hooks s) = true /\
  errorMessage (hooks s) = Some msg_playback /\
  audioRef (refs s) = Some (mkAudioElement true (Fin 0) NaN).
Proof. vm_compute. repeat split. Qed.

End PlaybackClaims.

(** ** Decoding *)

Section DecodingClaims.

(** A rejected decoding changes neither the error message nor the
    canvas, whichever handler called [visualizeAudio]. *)
Lemma decode_failure_is_silent (s : State) (file : option PickedFile) :
  errorMessage (hooks (handle (FileChosen file DecodeRejected) s))
  = errorMessage (hooks s) /\
  canvasRef (refs (handle (FileChosen file DecodeRejected) s))
  = canvasRef (refs s) /\
  errorMessage (hooks (handle (RecorderStopped DecodeRejected) s))
  = errorMessage (hooks s) /\
  canvasRef (refs (handle (RecorderStopped DecodeRejected) s))
  = canvasRef (refs s).
Proof.
  unfold handle.
  destruct (flushEffects_frame (dispatch (FileChosen file DecodeRejected) s))
    as (-> & _ & _ & _ & _ & -> & _).
  destruct (flushEffects_frame (dispatch (RecorderStopped DecodeRejected) s))
    as (-> & _ & _ & _ & _ & -> & _).
  repeat split; destruct file; handler; congruence.
Qed.

(** C4.  A chosen file that cannot be decoded, and a recording that cannot
    be decoded, are taken as the capture with no error message set and
    nothing drawn on the canvas. *)
Theorem decode_failure_reports_nothing :
  let s := handle (FileChosen (Some not_audio) DecodeRejected) initial in
  let r := run [ClickRecord MicGranted; ClickStop;
                RecorderStopped DecodeRejected] initial in
  errorMessage (hooks s) = None /\
  audioSource (hooks s) = Some uploaded /\
  canvasRef (refs s) = Some (mkCanvas 800 100 (Some [])) /\
  errorMessage (hooks r) = None /\
  audioSource (hooks r) = Some recorded /\
  canvasRef (refs r) = Some (mkCanvas 800 100 (Some [])).
Proof. vm_compute. repeat split. Qed.

End DecodingClaims.

(** ** Recording *)

Section RecordingExtras.

Local Open Scope nat_scope.

Lemma run_app (l1 l2 : list Event) (s : State) :
  run (l1 ++ l2) s = run l2 (run l1 s).
Proof. apply fold_left_app. Qed.

(** The recorder and the recording flag after chunks are delivered. *)
Lemma run_data (chunks : list (list Byte.byte)) :
  forall s r,
    mediaRecorderRef (refs s) = Some r ->
    mediaRecorderRef (refs (run (map RecorderData chunks) s))
    = Some (mkMediaRecorder (rec_stream r) (rec_state r) (audioChunks r ++ chunks)) /\
    isRecording (hooks (run (map RecorderData chunks) s)) = isRecording (hooks s).
Proof.
  induction chunks as [|c cs IH]; intros s r M; simpl.
  - rewrite app_nil_r. split; [|reflexivity]. rewrite M. now destruct r.
  - assert (M' : mediaRecorderRef (refs (handle (RecorderData c) s))
                 = Some (push_chunk c r)).
    { unfold handle.
      destruct (flushEffects_frame (dispatch (RecorderData c) s)) as (-> & _).
      cbn. unfold ondataavailable. rewrite M. reflexivity. }
    destruct (IH _ _ M') as (E1 & E2). rewrite E1, E2. cbn.
    rewrite <- app_assoc. split; [reflexivity|].
    unfold handle.
    destruct (flushEffects_frame (dispatch (RecorderData c) s))
      as (_ & _ & _ & _ & -> & _).
    cbn. unfold ondataavailable. rewrite M. reflexivity.
Qed.

(** X1.  Whatever the state a recording is started in, the chunks the
    recorder delivers before and after the stop button is pressed end up,
    concatenated in their order of arrival, as the bytes of the capture:
    a blob of type audio/wav labelled as recorded; chunks of an earlier
    recording are not part of it. *)
Theorem recording_concatenates_chunks
        (s : State) (early late : list (list Byte.byte)) (d : Decoding) :
  let s' := run (ClickRecord MicGranted :: map RecorderData early
                 ++ ClickStop :: map RecorderData late
                 ++ [RecorderStopped d]) s in
  exists blob,
    audioBlob (hooks s') = Some blob /\
    blob_bytes blob = List.concat (early ++ late) /\
    blob_type blob = "audio/wav"%string /\
    blob_name blob = None /\
    audioSource (hooks s') = Some recorded /\
    isRecording (hooks s') = false.
Proof.
  cbv zeta. cbn [run fold_left]. fold (run (map RecorderData early ++
    ClickStop :: map RecorderData late ++ [RecorderStopped d])
    (handle (ClickRecord MicGranted) s)).
  set (s1 := handle (ClickRecord MicGranted) s).
  assert (M1 : mediaRecorderRef (refs s1)
               = Some (mkMediaRecorder (nextId (browser s)) recording [])).
  { subst s1. unfold handle.
    destruct (flushEffects_frame (dispatch (ClickRecord MicGranted) s)) as (-> & _).
    reflexivity. }
  assert (I1 : isRecording (hooks s1) = true).
  { subst s1. unfold handle.
    destruct (flushEffects_frame (dispatch (ClickRecord MicGranted) s))
      as (_ & _ & _ & _ & -> & _).
    reflexivity. }
  rewrite run_app. destruct (run_data early s1 _ M1) as (M2 & I2).
  set (s2 := run (map RecorderData early) s1) in *. cbn in M2.
  rewrite I1 in I2. cbn [run fold_left].
  fold (run (map RecorderData late ++ [RecorderStopped d]) (handle ClickStop s2)).
  set (s3 := handle ClickStop s2).
  assert (M3 : mediaRecorderRef (refs s3)
               = Some (mkMediaRecorder (nextId (browser s)) inactive early)).
  { subst s3. unfold handle.
    destruct (flushEffects_frame (dispatch ClickStop s2)) as (-> & _).
    cbn. unfold stopRecording. rewrite M2, I2. reflexivity. }
  rewrite run_app. destruct (run_data late s3 _ M3) as (M4 & _).
  set (s4 := run (map RecorderData late) s3) in *. cbn in M4.
  cbn [run fold_left]. unfold handle.
  destruct (flushEffects_frame (dispatch (RecorderStopped d) s4))
    as (_ & _ & _ & _ & -> & _ & -> & ->).
  cbn. unfold onstop. rewrite M4.
  unfold call_visualizeAudio, new_Blob, fresh.
  destruct (visualizeAudio _ d); cbn; eexists; repeat split; reflexivity.
Qed.

End RecordingExtras.

(** ** Uploading *)

Section UploadExtras.

Local Open Scope nat_scope.

(** X2.  Submitting without a capture does nothing at all.  Submitting a
    held capture issues one POST whose file is always named
    audio_expense.wav and typed audio/wav, whatever the name and type of
    the capture, and carries the capture's bytes; it shows the loading
    state and leaves the capture and any earlier error message in
    place. *)
Theorem upload_posts_fixed_file (s : State) :
  reachable s ->
  (audioBlob (hooks s) = None -> handle ClickSubmit s = s) /\
  (forall blob, audioBlob (hooks s) = Some blob ->
     let s' := handle ClickSubmit s in
     exists file,
       calls (browser s') = calls (browser s) ++ [post_upload file] /\
       blob_name file = Some "audio_expense.wav"%string /\
       blob_type file = "audio/wav"%string /\
       blob_bytes file = blob_bytes blob /\
       isLoading (hooks s') = true /\
       pendingUploads (fiber s') = S (pendingUploads (fiber s)) /\
       audioBlob (hooks s') = Some blob /\
       audioUrl (hooks s') = audioUrl (hooks s) /\
       errorMessage (hooks s') = errorMessage (hooks s)).
Proof.
  intro R. pose proof (reachable_consistent s R) as C.
  rewrite (handle_is_dispatch ClickSubmit s C eq_refl) by discriminate.
  cbn. unfold handleUpload_begin. split.
  - intros ->. reflexivity.
  - intros blob B. rewrite B. cbn. eexists. repeat split; try reflexivity.
    exact B.
Qed.

Lemma upload_posts_fixed_file_witness :
  exists file,
    calls (browser (handle ClickSubmit with_capture))
    = calls (browser with_capture) ++ [post_upload file] /\
    blob_name file = Some "audio_expense.wav"%string /\
    blob_type file = "audio/wav"%string.
Proof.
  assert (R : reachable with_capture)
    by (apply reachable_handle, reachable_initial).
  destruct (upload_posts_fixed_file with_capture R) as (_ & H).
  destruct (H (mkBlob 0 (Some (picked_name voice_note)) (picked_type voice_note)
                      (picked_bytes voice_note)) eq_refl)
    as (file & E & N & T & _).
  exists file. auto.
Defined.



End UploadExtras.

(** ** Playback and the error modal *)

Section PlaybackExtras.

Local Open Scope nat_scope.

(** One toggle: the flag is negated when the audio element is mounted,
    and the element paused or, if [play()] succeeds, set playing. *)
Lemma toggle_effect (s : State) (playSucceeds : bool) :
  match audioRef (refs s) with
  | Some audio =>
      isPlaying (hooks (handle (ClickPlayPause playSucceeds) s))
      = negb (isPlaying (hooks s)) /\
      audioRef (refs (handle (ClickPlayPause playSucceeds) s))
      = Some (if isPlaying (hooks s) then audio_pause audio
              else if playSucceeds then audio_play audio else audio)
  | None =>
      isPlaying (hooks (handle (ClickPlayPause playSucceeds) s))
      = isPlaying (hooks s) /\
      audioRef (refs (handle (ClickPlayPause playSucceeds) s)) = None
  end.
Proof.
  unfold handle.
  destruct (flushEffects_frame (dispatch (ClickPlayPause playSucceeds) s))
    as (-> & _ & _ & -> & _).
  cbn. unfold togglePlayback.
  destruct (audioRef (refs s)) as [audio|] eqn:A; [|now rewrite A].
  destruct (isPlaying (hooks s)), playSucceeds; cbn; rewrite ?A; split; reflexivity.
Qed.

(** X4.  Toggling playback twice in a row brings [isPlaying] back to what
    it was, whether or not the [play()] in between succeeds; when the
    widget was not playing, the audio element is paused afterwards. *)
Theorem toggle_twice_restores_isPlaying (s : State) (first second : bool) :
  let s'' := handle (ClickPlayPause second) (handle (ClickPlayPause first) s) in
  isPlaying (hooks s'') = isPlaying (hooks s) /\
  (forall audio, audioRef (refs s) = Some audio -> isPlaying (hooks s) = false ->
     audioRef (refs s'')
     = Some (mkAudioElement true (currentTime audio) (duration audio))).
Proof.
  cbv zeta. set (s1 := handle (ClickPlayPause first) s).
  pose proof (toggle_effect s first) as T1. fold s1 in T1.
  pose proof (toggle_effect s1 second) as T2.
  destruct (audioRef (refs s)) as [audio|] eqn:A.
  - destruct T1 as (P1 & A1). rewrite A1 in T2. destruct T2 as (P2 & A2).
    split; [rewrite P2, P1; apply negb_involutive|].
    intros a [= <-] Q. rewrite A2, P1, Q. cbn.
    now destruct first.
  - destruct T1 as (P1 & A1). rewrite A1 in T2. destruct T2 as (P2 & _).
    split; [now rewrite P2, P1 | discriminate].
Qed.

Lemma toggle_twice_restores_isPlaying_witness :
  audioRef (refs (handle (ClickPlayPause true)
                         (handle (ClickPlayPause false) with_capture)))
  = Some (mkAudioElement true (Fin 0) NaN).
Proof.
  destruct (toggle_twice_restores_isPlaying with_capture false true) as (_ & H).
  exact (H (mkAudioElement true (Fin 0) NaN) eq_refl eq_refl).
Defined.

(** X5.  An error message, once shown, is taken away only by closing the
    modal: every other event leaves a message in place (possibly a newer
    one).  Closing removes the message and, in a reachable state, changes
    nothing else: every other hook, the refs, the effect bookkeeping and
    the browser state are as before. *)
Theorem error_message_stays_until_closed (s : State) (e : Event) (m : string) :
  errorMessage (hooks s) = Some m ->
  (e <> CloseError -> exists m', errorMessage (hooks (handle e s)) = Some m') /\
  errorMessage (hooks (handle CloseError s)) = None /\
  refs (handle CloseError s) = refs s /\
  audioBlob (hooks (handle CloseError s)) = audioBlob (hooks s) /\
  isPlaying (hooks (handle CloseError s)) = isPlaying (hooks s) /\
  isRecording (hooks (handle CloseError s)) = isRecording (hooks s) /\
  (reachable s ->
   let s' := handle CloseError s in
   s' = setErrorMessage None s /\
   audioUrl (hooks s') = audioUrl (hooks s) /\
   audioSource (hooks s') = audioSource (hooks s) /\
   isLoading (hooks s') = isLoading (hooks s) /\
   playbackPosition (hooks s') = playbackPosition (hooks s) /\
   fiber s' = fiber s /\
   browser s' = browser s).
Proof.
  intro M.
  pose proof (flushEffects_frame (dispatch CloseError s))
    as (Fr & _ & _ & Fp & Fi & Fe & _ & Fb).
  split; [|split; [|split; [|split; [|split; [|split]]]]].
  - intro N. unfold handle.
    destruct (flushEffects_frame (dispatch e s)) as (_ & _ & _ & _ & _ & -> & _).
    destruct e; try congruence; handler; eauto.
  - unfold handle. rewrite Fe. reflexivity.
  - unfold handle. rewrite Fr. destruct s as [h r f b]; reflexivity.
  - unfold handle. rewrite Fb. reflexivity.
  - unfold handle. rewrite Fp. reflexivity.
  - unfold handle. rewrite Fi. reflexivity.
  - intros R s'. subst s'. pose proof (reachable_consistent s R) as C.
    rewrite (handle_is_dispatch CloseError s C eq_refl) by discriminate.
    cbn. repeat split.
Qed.

Lemma error_message_stays_until_closed_witness :
  (errorMessage (hooks play_failed) = Some msg_playback /\
   0 < pendingUploads (fiber play_failed)) /\
  (exists m',
     errorMessage (hooks (handle (UploadSettled NoResponse false) play_failed))
     = Some m') /\
  errorMessage (hooks (handle CloseError play_failed)) = None /\
  isLoading (hooks (handle CloseError play_failed)) = true /\
  browser (handle CloseError play_failed) = browser play_failed.
Proof.
  assert (R : reachable play_failed).
  { do 3 apply reachable_handle. apply reachable_initial. }
  destruct (error_message_stays_until_closed
              play_failed (UploadSettled NoResponse false)
              msg_playback eq_refl)
    as (H & N & _ & _ & _ & _ & F).
  destruct (F R) as (_ & _ & _ & L & _ & _ & B).
  split; [split; [reflexivity | vm_compute; lia]|].
  split; [apply H; discriminate|].
  split; [exact N|]. split; [rewrite L; reflexivity | exact B].
Defined.

End PlaybackExtras.

(** ** Reset, labels and the rendered controls *)

Section ScreenExtras.

Local Open Scope nat_scope.

(** The render leaves the count of pending uploads and the loading flag
    alone. *)
Lemma flushEffects_pending (d : State) :
  pendingUploads (fiber (flushEffects d)) = pendingUploads (fiber d).
Proof.
  unfold flushEffects, URL_createObjectURL, URL_revokeObjectURL, fresh.
  repeat match goal with
         | |- context [match ?x with _ => _ end] => destruct x eqn:?
         end; reflexivity.
Qed.

Lemma flushEffects_loading (d : State) :
  isLoading (hooks (flushEffects d)) = isLoading (hooks d).
Proof.
  unfold flushEffects, URL_createObjectURL, URL_revokeObjectURL, fresh.
  repeat match goal with
         | |- context [match ?x with _ => _ end] => destruct x eqn:?
         end; reflexivity.
Qed.

(** X6.  A reset drops the capture, its label and its url, and revokes
    the object url with one [revokeObjectURL] call (none when nothing was
    held); it appends one [clearRect] over the whole canvas.  It does not
    stop a recording under way, cancel an upload in flight or dismiss an
    error message: the recorder, the recording and loading flags, the
    pending uploads and the message are untouched. *)
Theorem reset_releases_capture (s : State) :
  reachable s ->
  let s' := handle ClickTrash s in
  audioBlob (hooks s') = None /\
  audioUrl (hooks s') = None /\
  audioSource (hooks s') = None /\
  objectUrls (browser s') = [] /\
  calls (browser s')
  = calls (browser s)
    ++ match audioUrl (hooks s) with
       | Some url => [revokeObjectURL url]
       | None => []
       end /\
  (exists drawn,
      canvasRef (refs s) = Some (mkCanvas 800 100 (Some drawn)) /\
      canvasRef (refs s')
      = Some (mkCanvas 800 100 (Some (drawn ++ [ClearRect 0 0 800 100])))) /\
  mediaRecorderRef (refs s') = mediaRecorderRef (refs s) /\
  isRecording (hooks s') = isRecording (hooks s) /\
  isLoading (hooks s') = isLoading (hooks s) /\
  pendingUploads (fiber s') = pendingUploads (fiber s) /\
  errorMessage (hooks s') = errorMessage (hooks s).
Proof.
  intros R s'. pose proof (reachable_consistent s R) as C.
  pose proof (consistent_handle ClickTrash s C) as C'. fold s' in C'.
  destruct (dispatch_reset s) as (R1 & R2 & _ & _ & R5 & Rf & Rb).
  destruct (flushEffects_frame (dispatch ClickTrash s))
    as (Fr & _ & _ & _ & Fi & Fe & Fs & Fb).
  pose proof (flushEffects_loading (dispatch ClickTrash s)) as Fl.
  fold (handle ClickTrash s) in Fr, Fi, Fe, Fs, Fb, Fl.
  fold s' in Fr, Fi, Fe, Fs, Fb, Fl.
  assert (B' : audioBlob (hooks s') = None) by (now rewrite Fb).
  assert (U' : audioUrl (hooks s') = None) by (now apply (c_both s' C')).
  split; [exact B'|]. split; [exact U'|].
  split; [now rewrite Fs|].
  split; [rewrite (c_urls s' C'); unfold held; now rewrite U'|].
  split.
  { subst s'. unfold handle.
    destruct (audioBlob (hooks s)) as [blob|] eqn:O.
    - assert (D : effectDeps (fiber (dispatch ClickTrash s)) = Some blob)
        by (now rewrite Rf, (c_deps s C)).
      destruct (flushEffects_no_capture _ blob R1 D) as (_ & _ & _ & _ & _ & F6).
      rewrite F6, Rb, Rf, (c_cleanup s C). reflexivity.
    - rewrite flushEffects_idle by (now rewrite Rf, (c_deps s C), R1).
      rewrite Rb. destruct (audioUrl (hooks s)) as [u|] eqn:U.
      + apply (c_both s C) in O. congruence.
      + now rewrite app_nil_r. }
  destruct (st_canvas s (c_steady s C)) as (drawn & Hc).
  split.
  { exists drawn. split; [exact Hc|]. rewrite Fr. cbn. unfold resetAudio, clear_canvas.
    destruct (audioRef (refs s)); cbn; rewrite Hc; reflexivity. }
  rewrite Fr, Fi, Fe, Fl.
  assert (Pf : pendingUploads (fiber s') = pendingUploads (fiber s)).
  { subst s'. unfold handle. now rewrite flushEffects_pending, Rf. }
  repeat split; try exact Pf; handler; reflexivity.
Qed.

Lemma reset_releases_capture_witness :
  objectUrls (browser (handle ClickTrash with_capture)) = [] /\
  calls (browser (handle ClickTrash with_capture))
  = calls (browser with_capture) ++ [revokeObjectURL (BlobUrl 1)].
Proof.
  assert (R : reachable with_capture)
    by (apply reachable_handle, reachable_initial).
  destruct (reset_releases_capture with_capture R) as (_ & _ & _ & O & K & _).
  exact (conj O K).
Defined.

(** Every handler labels the capture it sets. *)
Lemma labelled_handle (e : Event) (s : State) :
  labelled s -> labelled (handle e s).
Proof.
  unfold labelled, handle.
  destruct (flushEffects_frame (dispatch e s))
    as (_ & _ & _ & _ & _ & _ & -> & ->).
  destruct e; handler; tidy; cbn; eauto; congruence.
Qed.

Lemma reachable_labelled (s : State) : reachable s -> labelled s.
Proof.
  induction 1 as [|e s R IH]; [exact I | now apply labelled_handle].
Qed.

(** X7.  In every reachable state the label matches the capture: no label
    without a capture and none missing; a capture labelled as recorded is
    a nameless blob of type audio/wav, one labelled as uploaded is a
    named file.  So the status line reads "Audio grabado" or "Audio
    cargado" only over a capture of that origin, and shows the prompt only
    when nothing is held and nothing is being recorded. *)
Theorem status_line_tells_origin (s : State) :
  reachable s ->
  labelled s /\
  (statusText (view s) = text_recorded ->
   exists blob, audioBlob (hooks s) = Some blob /\ blob_name blob = None /\
                blob_type blob = "audio/wav"%string) /\
  (statusText (view s) = text_uploaded ->
   exists blob name, audioBlob (hooks s) = Some blob /\
                     blob_name blob = Some name) /\
  (statusText (view s) = text_prompt ->
   audioBlob (hooks s) = None /\ isRecording (hooks s) = false).
Proof.
  intro R. pose proof (reachable_labelled s R) as L.
  split; [exact L|].
  unfold labelled in L. unfold view; cbn.
  destruct (isRecording (hooks s));
    destruct (audioBlob (hooks s)) as [blob|];
    destruct (audioSource (hooks s)) as [[|]|];
    try contradiction; repeat split; try discriminate; eauto;
      destruct L; eauto.
Qed.

Lemma status_line_tells_origin_witness :
  exists blob name, audioBlob (hooks with_capture) = Some blob /\
                    blob_name blob = Some name.
Proof.
  assert (R : reachable with_capture)
    by (apply reachable_handle, reachable_initial).
  destruct (status_line_tells_origin with_capture R) as (_ & _ & U & _).
  apply U. reflexivity.
Defined.

Lemma ui_reachable (s : State) : reachable_ui s -> reachable s.
Proof.
  induction 1 as [|e s _ IH _]; [apply reachable_initial|].
  now apply reachable_handle.
Qed.

(** X8.  When the user acts through the rendered controls, at most one
    upload is in flight, and the loading state (the overlay, the disabled
    submit button) is shown exactly while one is: the submit button is
    offered only with a capture held and no upload pending. *)
Theorem one_upload_in_flight (s : State) :
  reachable_ui s ->
  pendingUploads (fiber s) <= 1 /\
  (isLoading (hooks s) = true <-> pendingUploads (fiber s) = 1) /\
  (offered s ClickSubmit = true ->
   pendingUploads (fiber s) = 0 /\ exists blob, audioBlob (hooks s) = Some blob).
Proof.
  intro R.
  assert (J : pendingUploads (fiber s) <= 1 /\
              (isLoading (hooks s) = true <-> pendingUploads (fiber s) = 1)).
  { induction R as [|e s R IH O]; [cbn; split; [lia | split; [discriminate | lia]]|].
    unfold handle. rewrite flushEffects_pending, flushEffects_loading.
    destruct IH as (Le & Iff).
    destruct e; cbn in O; handler; cbn in *; try discriminate;
      try (split; [assumption | assumption]).
    all: try (split; [lia | split; [reflexivity + discriminate + lia |
                                     reflexivity + discriminate + lia]]).
    all: try (split; [lia | split; intro; [discriminate || lia | lia || discriminate]]).
    all: try (destruct (isLoading (hooks s)); [discriminate O|];
              destruct (pendingUploads (fiber s)) as [|[|n]];
              [split; [lia | split; reflexivity]
              | destruct Iff as (_ & H); specialize (H eq_refl); discriminate
              | lia]).
    all: match goal with
         | H : pendingUploads (fiber ?s) = 0 |- _ => rewrite H
         end; split; assumption. }
  destruct J as (Le & Iff). split; [exact Le|]. split; [exact Iff|].
  unfold offered, view; cbn. destruct (audioBlob (hooks s)) as [blob|]; [|discriminate].
  destruct (isLoading (hooks s)) eqn:L; [discriminate|]. intros _.
  split; [|eauto].
  destruct (pendingUploads (fiber s)) as [|[|n]]; [reflexivity | | lia].
  destruct Iff as (_ & H). specialize (H eq_refl). discriminate.
Qed.

Lemma one_upload_in_flight_witness :
  pendingUploads (fiber uploading) <= 1 /\
  (isLoading (hooks uploading) = true <-> pendingUploads (fiber uploading) = 1).
Proof.
  assert (R : reachable_ui uploading).
  { apply ui_handle; [|reflexivity].
    apply ui_handle; [apply ui_initial | reflexivity]. }
  destruct (one_upload_in_flight uploading R) as (L & E & _).
  exact (conj L E).
Defined.

Lemma created_app (l l' : list Call) : created (l ++ l') = created l + created l'.
Proof. unfold created. now rewrite filter_app, length_app. Qed.

Lemma revoked_app (l l' : list Call) : revoked (l ++ l') = revoked l + revoked l'.
Proof. unfold revoked. now rewrite filter_app, length_app. Qed.

(** One turn of the event loop keeps the urls created, the urls revoked
    and the urls alive in balance. *)
Lemma balance_handle (e : Event) (s : State) :
  consistent s ->
  created (calls (browser s))
  = revoked (calls (browser s)) + List.length (objectUrls (browser s)) ->
  created (calls (browser (handle e s)))
  = revoked (calls (browser (handle e s)))
    + List.length (objectUrls (browser (handle e s))).
Proof.
  intros C B.
  assert (L : List.length (objectUrls (browser s))
              = match audioUrl (hooks s) with Some _ => 1 | None => 0 end).
  { rewrite (c_urls s C). unfold held.
    destruct (audioUrl (hooks s)) as [u|] eqn:U; [|reflexivity].
    destruct (audioBlob (hooks s)) eqn:O; [reflexivity|].
    apply (c_both s C) in O. congruence. }
  destruct (brings_capture e s) eqn:Br.
  - destruct (dispatch_new_capture e s Br)
      as (blob & Hb & Hid & Hn & Hu & Hf & Ho & Hc).
    pose proof (new_capture_changes_dep e s blob C Hf Hid) as D.
    destruct (flushEffects_new_capture _ blob Hb D)
      as (_ & _ & _ & _ & _ & F6 & F7).
    unfold handle. rewrite F7, F6, Hf, Ho, Hc, (held_filtered s C).
    rewrite (c_cleanup s C). rewrite !created_app, !revoked_app.
    destruct (audioUrl (hooks s)); cbn; lia.
  - destruct (trash_or_not e) as [-> | T].
    + destruct (dispatch_reset s) as (R1 & R2 & _ & _ & _ & Rf & Rb).
      unfold handle.
      destruct (audioBlob (hooks s)) as [blob|] eqn:O.
      * assert (D : effectDeps (fiber (dispatch ClickTrash s)) = Some blob)
          by (now rewrite Rf, (c_deps s C)).
        destruct (flushEffects_no_capture _ blob R1 D)
          as (_ & _ & _ & _ & F5 & F6).
        rewrite F6, F5, Rf, Rb, (held_filtered s C), (c_cleanup s C).
        rewrite created_app, revoked_app.
        destruct (audioUrl (hooks s)); cbn; lia.
      * rewrite flushEffects_idle by (now rewrite Rf, (c_deps s C), R1).
        now rewrite Rb.
    + rewrite (handle_is_dispatch e s C Br T).
      destruct (dispatch_keeps_capture e s Br T) as (_ & _ & _ & _ & -> & _).
      unfold created, revoked in *.
      destruct e; try congruence; cbn in Br; handler; try discriminate;
        rewrite ?filter_app, ?length_app; cbn; rewrite ?Nat.add_0_r;
          assumption.
Qed.

(** X10.  In every reachable state each object url ever created has been
    revoked, except the one of the capture held: the [createObjectURL]
    calls made so far are as many as the [revokeObjectURL] calls plus the
    urls alive, and at most one url is alive. *)
Theorem object_urls_balance (s : State) :
  reachable s ->
  created (calls (browser s))
  = revoked (calls (browser s)) + List.length (objectUrls (browser s)) /\
  List.length (objectUrls (browser s))
  = match audioBlob (hooks s) with Some _ => 1 | None => 0 end.
Proof.
  intro R. split.
  - induction R as [|e s R IH]; [reflexivity|].
    apply balance_handle; [now apply reachable_consistent | exact IH].
  - pose proof (reachable_consistent s R) as C.
    rewrite (c_urls s C). unfold held.
    destruct (audioBlob (hooks s)) eqn:O.
    + destruct (audioUrl (hooks s)) eqn:U; [reflexivity|].
      apply (c_both s C) in U. congruence.
    + now destruct (audioUrl (hooks s)).
Qed.

Lemma object_urls_balance_witness :
  created (calls (browser recorded_and_reset))
  = revoked (calls (browser recorded_and_reset))
    + List.length (objectUrls (browser recorded_and_reset)).
Proof.
  apply object_urls_balance.
  apply reachable_handle, reachable_run, reachable_initial.
Defined.

End ScreenExtras.

(** ** More on the envelope *)

Section EnvelopeExtras.

Local Open Scope nat_scope.

Lemma In_span (channelData : list num) (step i : nat) (x : num) :
  In x (span channelData step i) -> In x channelData.
Proof.
  unfold span. intro H.
  rewrite <- (firstn_skipn (i * step) channelData). apply in_or_app. right.
  rewrite <- (firstn_skipn step (skipn (i * step) channelData)).
  apply in_or_app. now left.
Qed.

Lemma fold_min_within (lo hi : Q) (l : list num) :
  Forall (within lo hi) l ->
  forall a, within lo hi a -> within lo hi (fold_left min_step l a).
Proof.
  induction 1 as [|x l Hx _ IH]; intros a Ha; [exact Ha|].
  simpl. apply IH. unfold min_step. now destruct (lt x a).
Qed.

Lemma fold_max_within (lo hi : Q) (l : list num) :
  Forall (within lo hi) l ->
  forall a, within lo hi a -> within lo hi (fold_left max_step l a).
Proof.
  induction 1 as [|x l Hx _ IH]; intros a Ha; [exact Ha|].
  simpl. apply IH. unfold max_step. now destruct (gt x a).
Qed.

(** With nominal samples both ends of every pair are nominal. *)
Lemma column_nominal (channelData : list num) (step i : nat) :
  Forall (within (-1) 1) channelData ->
  within (-1) 1 (fst (column channelData step i)) /\
  within (-1) 1 (snd (column channelData step i)).
Proof.
  intro H. rewrite column_scans_span. simpl.
  assert (S : Forall (within (-1) 1) (span channelData step i)).
  { apply Forall_forall. intros x Hx.
    apply (proj1 (Forall_forall _ _) H), (In_span _ _ _ _ Hx). }
  split; [apply fold_min_within | apply fold_max_within]; try exact S;
    split; unfold Qle; simpl; lia.
Qed.

(** A nominal amplitude is drawn between the top and the bottom edge. *)
Lemma end_point_within (m : num) (HEIGHT : nat) :
  within (-1) 1 m ->
  within 0 (inject_Z (Z.of_nat HEIGHT))
         (mul (add one m) (div (of_nat HEIGHT) (Fin 2))).
Proof.
  destruct m as [q| | |]; cbn [within]; try contradiction. intros [L U].
  assert (HW : (0 <= inject_Z (Z.of_nat HEIGHT))%Q).
  { change 0%Q with (inject_Z 0). rewrite <- Zle_Qle. lia. }
  unfold one, of_nat, add, div, mul.
  change (Qeq_bool 2 0) with false. cbv iota. cbn [within].
  rewrite !Qred_correct. set (h := inject_Z (Z.of_nat HEIGHT)) in *.
  split.
  - apply Qmult_le_0_compat; [lra|]. apply Qle_shift_div_l; lra.
  - assert (E : ((1 + q) * (h / 2) == (1 + q) * h / 2)%Q) by (field).
    rewrite E. apply Qle_shift_div_r; [lra|]. nra.
Qed.

(** X11.  When every sample is within the nominal range [-1, 1], every
    path call of the envelope is a [moveTo] or a [lineTo] at a column of
    the canvas whose y coordinate lies between 0 and the canvas height:
    nothing is drawn outside the canvas, whatever the length of the
    buffer. *)
Theorem lines_within_canvas
        (channelData : list num) (WIDTH HEIGHT : nat) (cmd : DrawCmd) :
  Forall (within (-1) 1) channelData ->
  In cmd (draw_envelope channelData WIDTH HEIGHT) ->
  exists i y,
    (cmd = MoveTo i y \/ cmd = LineTo i y) /\
    i < WIDTH /\
    within 0 (inject_Z (Z.of_nat HEIGHT)) y.
Proof.
  intros H Hin. unfold draw_envelope in Hin.
  apply in_flat_map in Hin. destruct Hin as (i & Hi & Hc).
  apply in_seq in Hi.
  destruct (column_nominal channelData
              (ceil_div (List.length channelData) WIDTH) i H) as (Lo & Hi').
  destruct Hc as [<- | [<- | []]].
  - eexists i, _. split; [left; reflexivity|]. split; [lia|].
    now apply end_point_within.
  - eexists i, _. split; [right; reflexivity|]. split; [lia|].
    now apply end_point_within.
Qed.

Lemma lines_within_canvas_witness :
  exists i y,
    (LineTo 1 (Fin (200 # 3)) = MoveTo i y \/ LineTo 1 (Fin (200 # 3)) = LineTo i y) /\
    i < 2 /\ within 0 (inject_Z (Z.of_nat 100)) y.
Proof.
  apply (lines_within_canvas four_samples 2 100).
  - vm_compute. repeat constructor; discriminate.
  - vm_compute. do 3 right. left. reflexivity.
Defined.

(** X12.  A column whose span holds at least one sample of a buffer of
    finite samples records a pair with [min <= max], and the minimum is
    no larger, the maximum no smaller, than any sample of the span. *)
Theorem pair_is_ordered (channelData : list num) (WIDTH i : nat) :
  let step := ceil_div (List.length channelData) WIDTH in
  let mm := nth i (envelope channelData WIDTH) (NaN, NaN) in
  Forall finite channelData ->
  i < WIDTH ->
  i * step < List.length channelData ->
  lt (snd mm) (fst mm) = false /\
  forall x, In x (span channelData step i) ->
            lt x (fst mm) = false /\ gt x (snd mm) = false.
Proof.
  intros step mm F Hi Hin. subst mm.
  rewrite nth_envelope by exact Hi. fold step. rewrite column_scans_span.
  simpl fst; simpl snd.
  assert (S : Forall finite (span channelData step i)).
  { apply Forall_forall. intros x Hx.
    apply (proj1 (Forall_forall _ _) F), (In_span _ _ _ _ Hx). }
  destruct (fold_min_below _ S (Fin 1) I) as (Fm & _ & Bm).
  destruct (fold_max_above _ S (Fin (-1)) I) as (FM & _ & BM).
  split; [|intros x Hx; split; [now apply Bm | now apply BM]].
  assert (Hs : span channelData step i <> []).
  { intro E. apply (f_equal (@List.length num)) in E.
    rewrite length_span in E. simpl in E.
    assert (0 < step); [|lia]. apply ceil_div_pos; lia. }
  destruct (span channelData step i) as [|x r] eqn:E; [congruence|].
  specialize (Bm x (or_introl eq_refl)). specialize (BM x (or_introl eq_refl)).
  set (lo := fold_left min_step (x :: r) (Fin 1)) in *.
  set (hi := fold_left max_step (x :: r) (Fin (-1))) in *.
  clearbody lo hi. inversion S as [|? ? Fx _]; subst.
  unfold gt in BM.
  destruct lo as [a| | |], hi as [b| | |], x as [c| | |]; try contradiction.
  simpl in *. apply Qltb_ge in Bm, BM. apply Qltb_ge. lra.
Qed.

Lemma pair_is_ordered_witness :
  lt (snd (nth 1 (envelope four_samples 2) (NaN, NaN)))
     (fst (nth 1 (envelope four_samples 2) (NaN, NaN))) = false.
Proof.
  destruct (pair_is_ordered four_samples 2 1) as (H & _).
  - vm_compute. repeat constructor.
  - lia.
  - vm_compute. lia.
  - exact H.
Defined.

Lemma In_indices_read (n WIDTH k : nat) :
  In k (indices_read n WIDTH) <->
  exists i j, i < WIDTH /\ j < ceil_div n WIDTH /\ k = i * ceil_div n WIDTH + j.
Proof.
  unfold indices_read. rewrite in_flat_map. split.
  - intros (i & Hi & Hk). apply in_map_iff in Hk. destruct Hk as (j & <- & Hj).
    apply in_seq in Hi, Hj. exists i, j. repeat split; lia.
  - intros (i & j & Hi & Hj & ->). exists i. split; [apply in_seq; lia|].
    apply in_map_iff. exists j. split; [reflexivity | apply in_seq; lia].
Qed.

(** X13.  On a canvas of positive width the loops read only indices of
    the buffer exactly when the width divides the number of samples; and
    in every case the indices read stay below that number plus the
    width. *)
Theorem reads_inside_iff_divides (n WIDTH : nat) :
  0 < WIDTH ->
  (Forall (fun k => k < n) (indices_read n WIDTH) <-> n mod WIDTH = 0) /\
  Forall (fun k => k < n + WIDTH) (indices_read n WIDTH).
Proof.
  intro HW. split; [split|].
  - intro F. destruct (Nat.eq_dec (n mod WIDTH) 0) as [E|E]; [exact E|].
    exfalso. destruct (last_index_outside n WIDTH HW E) as (Hs & Hk).
    rewrite Forall_forall in F.
    specialize (F ((WIDTH - 1) * ceil_div n WIDTH + (ceil_div n WIDTH - 1))).
    assert (In ((WIDTH - 1) * ceil_div n WIDTH + (ceil_div n WIDTH - 1))
               (indices_read n WIDTH)).
    { apply In_indices_read. exists (WIDTH - 1), (ceil_div n WIDTH - 1).
      repeat split; lia. }
    specialize (F H). cbv zeta in Hk. lia.
  - intro E. apply Forall_forall. intros k Hk.
    apply In_indices_read in Hk. destruct Hk as (i & j & Hi & Hj & ->).
    now apply indices_inside.
  - apply Forall_forall. intros k Hk.
    apply In_indices_read in Hk. destruct Hk as (i & j & Hi & Hj & ->).
    destruct (ceil_div_bounds n WIDTH HW) as (_ & U).
    set (step := ceil_div n WIDTH) in *. nia.
Qed.

Lemma reads_inside_iff_divides_witness :
  Forall (fun k => k < 1600) (indices_read 1600 800) <-> 1600 mod 800 = 0.
Proof.
  destruct (reads_inside_iff_divides 1600 800) as (H & _); [lia | exact H].
Defined.

(** X14.  A column whose span starts at or past the end of the buffer -
    every column, when the buffer is empty - records the initial pair
    (1.0, -1.0) and is drawn from the bottom edge of the canvas to the
    top edge. *)
Theorem empty_column_spans_canvas
        (channelData : list num) (WIDTH HEIGHT i : nat) :
  let step := ceil_div (List.length channelData) WIDTH in
  i < WIDTH ->
  List.length channelData <= i * step ->
  nth i (envelope channelData WIDTH) (NaN, NaN) = (Fin 1, Fin (-1)) /\
  exists bottom top,
    draw_column (div (of_nat HEIGHT) (Fin 2)) i
                (nth i (envelope channelData WIDTH) (NaN, NaN))
    = [MoveTo i (Fin bottom); LineTo i (Fin top)] /\
    (bottom == inject_Z (Z.of_nat HEIGHT))%Q /\ (top == 0)%Q.
Proof.
  intros step Hi He. rewrite nth_envelope by exact Hi. fold step.
  rewrite (empty_span_keeps_initial channelData step i He).
  split; [reflexivity|].
  unfold draw_column, one, of_nat, add, div, mul. simpl fst; simpl snd.
  change (Qeq_bool 2 0) with false. cbv iota.
  eexists _, _. split; [reflexivity|].
  rewrite !Qred_correct. split; field.
Qed.

Lemma empty_column_spans_canvas_witness :
  nth 5 (envelope [] 800) (NaN, NaN) = (Fin 1, Fin (-1)).
Proof.
  destruct (empty_column_spans_canvas [] 800 100 5) as (H & _);
    [lia | simpl; lia | exact H].
Defined.

End EnvelopeExtras.

(** ** Starting a recording, choosing a file, time updates *)

Section HandlerExtras.

Local Open Scope nat_scope.


(** X16.  Choosing a file makes it the capture, with its own name, type
    and bytes, labelled as uploaded; it does not stop a recording under
    way, and it keeps the playing flag, the playback position and any
    error message of before.  When decoding succeeds on the mounted
    canvas, the drawing of channel 0 is appended to what the canvas
    showed; when it is rejected, the canvas is left as it was.  Leaving
    the picker without a file changes nothing. *)
Theorem file_choice_sets_capture (s : State) (f : PickedFile) (d : Decoding) :
  reachable s ->
  let s' := handle (FileChosen (Some f) d) s in
  (exists blob,
      audioBlob (hooks s') = Some blob /\
      blob_name blob = Some (picked_name f) /\
      blob_type blob = picked_type f /\
      blob_bytes blob = picked_bytes f) /\
  audioSource (hooks s') = Some uploaded /\
  isRecording (hooks s') = isRecording (hooks s) /\
  mediaRecorderRef (refs s') = mediaRecorderRef (refs s) /\
  isPlaying (hooks s') = isPlaying (hooks s) /\
  playbackPosition (hooks s') = playbackPosition (hooks s) /\
  errorMessage (hooks s') = errorMessage (hooks s) /\
  (exists drawn,
      canvasRef (refs s) = Some (mkCanvas 800 100 (Some drawn)) /\
      canvasRef (refs s')
      = Some (mkCanvas 800 100
                (Some (drawn ++ match d with
                                | Decoded audioBuffer => render audioBuffer 800 100
                                | DecodeRejected => []
                                end)))) /\
  handle (FileChosen None d) s = s.
Proof.
  intros R s'. pose proof (reachable_consistent s R) as C.
  destruct (st_canvas s (c_steady s C)) as (drawn & Hc).
  assert (Last : handle (FileChosen None d) s = s)
    by (now rewrite (handle_is_dispatch (FileChosen None d) s C eq_refl)
          by discriminate).
  subst s'. rewrite Last. unfold handle.
  destruct (flushEffects_frame (dispatch (FileChosen (Some f) d) s))
    as (-> & _ & -> & -> & -> & -> & -> & ->).
  split; [cbn; eexists; repeat split; handler; reflexivity|].
  split; [handler; reflexivity|].
  split; [handler; reflexivity|].
  split; [handler; reflexivity|].
  split; [handler; reflexivity|].
  split; [handler; reflexivity|].
  split; [handler; reflexivity|].
  split.
  - exists drawn. split; [exact Hc|].
    cbn. unfold handleFileSelect, call_visualizeAudio, visualizeAudio.
    cbn. rewrite Hc. destruct d; cbn; [reflexivity|].
    now rewrite Hc, app_nil_r.
  - reflexivity.
Qed.

Lemma file_choice_sets_capture_witness :
  audioSource (hooks (handle (FileChosen (Some not_audio) DecodeRejected) recorded_once))
  = Some uploaded /\
  isRecording (hooks (handle (FileChosen (Some not_audio) DecodeRejected) recorded_once))
  = isRecording (hooks recorded_once).
Proof.
  assert (R : reachable recorded_once) by apply reachable_run, reachable_initial.
  destruct (file_choice_sets_capture recorded_once not_audio DecodeRejected R)
    as (_ & S & I & _).
  exact (conj S I).
Defined.

(** X17.  While the browser reports an infinite duration, every time
    update stores position 0, so the marker does not move; while it
    reports no duration (NaN), or a clip of length zero at time zero, the
    position stored is NaN. *)
Theorem timeupdate_without_duration (s : State) (t : Q) :
  reachable s ->
  playbackPosition (hooks (handle (AudioTimeUpdate (Fin t) PInf) s)) = Fin 0 /\
  playbackPosition (hooks (handle (AudioTimeUpdate (Fin t) NaN) s)) = NaN /\
  playbackPosition (hooks (handle (AudioTimeUpdate (Fin 0) (Fin 0)) s)) = NaN.
Proof.
  intro R. pose proof (reachable_consistent s R) as C.
  destruct (st_canvas s (c_steady s C)) as (drawn & Hc).
  destruct (st_audio s (c_steady s C)) as (audio & Ha).
  repeat split.
  all: match goal with
       | |- context [handle ?e ?x] =>
           rewrite (handle_is_dispatch e x C eq_refl) by discriminate
       end.
  all: unfold dispatch, media_progress; rewrite Ha;
    unfold updatePlaybackPosition; cbn -[mul div of_nat]; rewrite Hc;
      cbn -[mul div of_nat]; reflexivity.
Qed.

Lemma timeupdate_without_duration_witness :
  playbackPosition (hooks (handle (AudioTimeUpdate (Fin 3) PInf) half_played))
  = Fin 0.
Proof.
  apply timeupdate_without_duration.
  do 2 apply reachable_handle. apply reachable_initial.
Defined.

End HandlerExtras.

(** ** What the controls on offer guarantee *)

Section ControlExtras.

Local Open Scope nat_scope.

(** X9.  In every reachable state the recording flag is on exactly when
    the recorder held in [mediaRecorderRef] is recording.  So when the
    microphone button offers to start a recording nothing is being
    recorded: no capture is held and the recorder left in the ref, if
    any, is inactive; and when it offers to stop, there is a recorder
    that is recording, the guard of [stopRecording] passes and the click
    stops it. *)
Theorem record_button_matches_recorder (s : State) (mic : MicAnswer) :
  reachable s ->
  (isRecording (hooks s) = true <->
   exists r, mediaRecorderRef (refs s) = Some r /\ rec_state r = recording) /\
  (offered s (ClickRecord mic) = true ->
   isRecording (hooks s) = false /\
   audioBlob (hooks s) = None /\
   forall r, mediaRecorderRef (refs s) = Some r -> rec_state r = inactive) /\
  (offered s ClickStop = true ->
   exists r,
     mediaRecorderRef (refs s) = Some r /\
     rec_state r = recording /\
     mediaRecorderRef (refs (handle ClickStop s)) = Some (MediaRecorder_stop r) /\
     isRecording (hooks (handle ClickStop s)) = false).
Proof.
  intro R. pose proof (reachable_consistent s R) as C.
  pose proof (c_steady s C) as St.
  split.
  { split; [apply (st_recording s St)|].
    intros (r & M & Q). destruct (isRecording (hooks s)) eqn:I; [reflexivity|].
    pose proof (st_idle s St I r M). congruence. }
  unfold offered, view; cbn.
  destruct (audioBlob (hooks s)) as [blob|]; cbn.
  - split; discriminate.
  - destruct (isRecording (hooks s)) eqn:I; cbn; split; try discriminate.
    + intros _. destruct (st_recording s St I) as (r & M & Q).
      exists r. split; [exact M|]. split; [exact Q|].
      rewrite (handle_is_dispatch ClickStop s C eq_refl) by discriminate.
      cbn. unfold stopRecording. rewrite M, I. cbn. split; reflexivity.
    + intros _. repeat split. apply (st_idle s St I).
Qed.

Lemma record_button_matches_recorder_witness :
  (isRecording (hooks initial) = false /\ audioBlob (hooks initial) = None) /\
  (isRecording (hooks recording_now) = true /\
   exists r,
     mediaRecorderRef (refs recording_now) = Some r /\
     rec_state r = recording /\
     audioChunks r = [[Byte.x00]] /\
     mediaRecorderRef (refs (handle ClickStop recording_now))
     = Some (MediaRecorder_stop r) /\
     isRecording (hooks (handle ClickStop recording_now)) = false) /\
  (exists r, mediaRecorderRef (refs recorded_and_reset) = Some r) /\
  (forall r, mediaRecorderRef (refs recorded_and_reset) = Some r ->
             rec_state r = inactive).
Proof.
  split; [|split; [|split]].
  - destruct (record_button_matches_recorder initial MicGranted reachable_initial)
      as (_ & H & _).
    destruct (H eq_refl) as (I & B & _). exact (conj I B).
  - assert (R : reachable recording_now)
      by (apply reachable_run, reachable_initial).
    destruct (record_button_matches_recorder recording_now MicGranted R)
      as (Iff & _ & Stop).
    destruct (Stop eq_refl) as (r & M & Q & M' & I').
    split; [apply Iff; exists r; exact (conj M Q)|].
    exists r. repeat split; try assumption.
    injection M as <-. reflexivity.
  - eexists. reflexivity.
  - assert (R : reachable recorded_and_reset)
      by (apply reachable_handle, reachable_run, reachable_initial).
    destruct (record_button_matches_recorder recorded_and_reset MicGranted R)
      as (_ & H & _).
    destruct (H eq_refl) as (_ & _ & In). exact In.
Defined.

(** X18.  In every reachable state, whenever the play and trash buttons
    and the submit button are on offer, the audio element's [src] is an
    object url that is alive (created and not revoked) and was made for
    the capture held; when they are not, [src] is empty and no object url
    is alive. *)
Theorem play_button_has_live_src (s : State) (playSucceeds : bool) :
  reachable s ->
  (offered s (ClickPlayPause playSucceeds) = true ->
   exists url blob,
     audioSrc (view s) = Some url /\
     audioBlob (hooks s) = Some blob /\
     objectUrls (browser s) = [(url, blob)] /\
     submitButton (view s) = Some (isLoading (hooks s))) /\
  (offered s (ClickPlayPause playSucceeds) = false ->
   audioSrc (view s) = None /\
   objectUrls (browser s) = [] /\
   submitButton (view s) = None).
Proof.
  intro R. pose proof (reachable_consistent s R) as C.
  pose proof (c_urls s C) as U. pose proof (c_both s C) as B.
  unfold held in U. unfold offered, view; cbn.
  destruct (audioBlob (hooks s)) as [blob|] eqn:O; cbn; split; try discriminate.
  - intros _. destruct (audioUrl (hooks s)) as [url|] eqn:A.
    + exists url, blob. auto.
    + destruct B as (_ & B). specialize (B eq_refl). discriminate.
  - intros _. destruct B as (B & _). rewrite (B eq_refl) in *. auto.
Qed.

Lemma play_button_has_live_src_witness :
  exists url blob,
    audioSrc (view with_capture) = Some url /\
    audioBlob (hooks with_capture) = Some blob /\
    objectUrls (browser with_capture) = [(url, blob)] /\
    submitButton (view with_capture) = Some (isLoading (hooks with_capture)).
Proof.
  assert (R : reachable with_capture)
    by (apply reachable_handle, reachable_initial).
  destruct (play_button_has_live_src with_capture true R) as (H & _).
  apply H. reflexivity.
Defined.

Lemma posted_app (l l' : list Call) : posted (l ++ l') = posted l ++ posted l'.
Proof. apply flat_map_app. Qed.

(** X19.  Only pressing submit sends anything: in every reachable state,
    no other event - in particular no failed or successful settlement of
    an upload - issues a POST, so a failed upload is never retried by the
    widget itself; and a press of submit sends at most one. *)
Theorem no_post_without_submit (s : State) (e : Event) :
  reachable s ->
  (e <> ClickSubmit ->
   posted (calls (browser (handle e s))) = posted (calls (browser s))) /\
  List.length (posted (calls (browser (handle ClickSubmit s))))
  <= S (List.length (posted (calls (browser s)))).
Proof.
  intro R. pose proof (reachable_consistent s R) as C. split.
  - intro N. destruct (brings_capture e s) eqn:Br.
    + destruct (dispatch_new_capture e s Br)
        as (blob & Hb & Hid & Hn & Hu & Hf & Ho & Hc).
      pose proof (new_capture_changes_dep e s blob C Hf Hid) as D.
      destruct (flushEffects_new_capture _ blob Hb D)
        as (_ & _ & _ & _ & _ & _ & F7).
      unfold handle. rewrite F7, Hc, !posted_app.
      destruct (effectCleanup (fiber (dispatch e s))); cbn; now rewrite app_nil_r.
    + destruct (trash_or_not e) as [-> | T].
      * destruct (dispatch_reset s) as (R1 & R2 & _ & _ & _ & Rf & Rb).
        unfold handle.
        destruct (audioBlob (hooks s)) as [blob|] eqn:O.
        -- assert (D : effectDeps (fiber (dispatch ClickTrash s)) = Some blob)
             by (now rewrite Rf, (c_deps s C)).
           destruct (flushEffects_no_capture _ blob R1 D)
             as (_ & _ & _ & _ & _ & F6).
           rewrite F6, Rb, posted_app.
           destruct (effectCleanup (fiber (dispatch ClickTrash s))); cbn;
             now rewrite app_nil_r.
        -- rewrite flushEffects_idle by (now rewrite Rf, (c_deps s C), R1).
           now rewrite Rb.
      * rewrite (handle_is_dispatch e s C Br T). unfold posted.
        destruct e; try congruence; cbn in Br; handler; try discriminate;
          rewrite ?flat_map_app; cbn; rewrite ?app_nil_r; reflexivity.
  - rewrite (handle_is_dispatch ClickSubmit s C eq_refl) by discriminate.
    cbn. unfold handleUpload_begin.
    destruct (audioBlob (hooks s)); cbn; [|lia].
    rewrite posted_app, length_app. cbn. lia.
Qed.

Lemma no_post_without_submit_witness :
  posted (calls (browser (handle (UploadSettled NoResponse false) uploading)))
  = posted (calls (browser uploading)).
Proof.
  assert (R : reachable uploading)
    by (do 2 apply reachable_handle; apply reachable_initial).
  destruct (no_post_without_submit uploading (UploadSettled NoResponse false) R)
    as (H & _).
  apply H. discriminate.
Defined.

End ControlExtras.
